(** * Long-Form-Audio-Eval: transcript comparison metrics

    A shallow embedding of the metric code of the repository:
    - [scripts/calculate_benchmarks.py]  (WER / CER / word accuracy, ranking),
    - [scripts/evaluate_transcripts.py]  (the older evaluation script),
    - [scripts/calculate_punctuation_accuracy.py] (punctuation metrics).

    Conventions.
    - A Python [str] is a list of Unicode code points ([N]).
    - A Python [int] is a [Z]; list lengths and indices are [nat].
    - A Python [float] is idealised as an exact rational ([Q]); equalities
      between floats are stated with [==].  [round(x, 2)] is rounding to the
      nearest hundredth, ties to even.
    - A Python exception is an error value of the [result] type; [raise]
      is [Raise], and [try ... except Exception] is a [match]. *)

From Stdlib Require Import String Ascii.
From Stdlib Require Import List Arith ZArith NArith QArith Qround Qabs Lia Lqa Bool.
From Stdlib Require Import Permutation Sorted.
Import ListNotations.

Local Open Scope nat_scope.

(* ================================================================== *)
(** * Python values and built-ins *)
(* ================================================================== *)

Module Py.

(** ** Exceptions *)

Inductive exn : Type :=
| ZeroDivisionError
| EmptyReferenceError
| FileNotFoundError
| KeyError
| UnicodeDecodeError
| OSError.

Inductive result (A : Type) : Type :=
| Ok (a : A)
| Raise (e : exn).

Arguments Ok {A} a.
Arguments Raise {A} e.

Definition bind {A B : Type} (m : result A) (k : A -> result B) : result B :=
  match m with
  | Ok a => k a
  | Raise e => Raise e
  end.

(** A loop whose body may raise: the first exception leaves the loop. *)
Fixpoint for_each {A S : Type} (body : S -> A -> result S) (l : list A) (s : S)
  : result S :=
  match l with
  | [] => Ok s
  | a :: l' => bind (body s a) (for_each body l')
  end.

(** ** Decidable equality on keys and tokens *)

Class EqB (K : Type) : Type := eqb : K -> K -> bool.

(** ** Strings *)

Definition char : Type := N.
Definition str : Type := list char.

#[export] Instance char_EqB : EqB char := N.eqb.

Fixpoint list_eqb {K} `{EqB K} (a b : list K) : bool :=
  match a, b with
  | [], [] => true
  | x :: a', y :: b' => eqb x y && list_eqb a' b'
  | _, _ => false
  end.

#[export] Instance list_EqB {K} `{EqB K} : EqB (list K) := list_eqb.

(** A string literal of ASCII characters. *)
Definition lit (s : string) : str :=
  map N_of_ascii (list_ascii_of_string s).

(** [str.isspace] on one code point: the code points CPython treats as
    white space (bidirectional class WS, B or S, or category Zs). *)
Definition isspace (c : char) : bool :=
  ((9 <=? c) && (c <=? 13) || (28 <=? c) && (c <=? 32)
   || (c =? 133) || (c =? 160) || (c =? 5760)
   || (8192 <=? c) && (c <=? 8202)
   || (c =? 8232) || (c =? 8233) || (c =? 8239) || (c =? 8287)
   || (c =? 12288))%N.

(** [text.split()]: maximal runs of characters that are not white space.
    [cur] holds the current run, reversed. *)
Fixpoint split_from (cur : str) (text : str) : list str :=
  match text with
  | [] => match cur with [] => [] | _ => [rev cur] end
  | c :: text' =>
      if isspace c
      then match cur with
           | [] => split_from [] text'
           | _ => rev cur :: split_from [] text'
           end
      else split_from (c :: cur) text'
  end.

Definition split (text : str) : list str := split_from [] text.

Fixpoint lstrip (text : str) : str :=
  match text with
  | [] => []
  | c :: text' => if isspace c then lstrip text' else text
  end.

Definition rstrip (text : str) : str := rev (lstrip (rev text)).

(** [text.strip()] *)
Definition strip (text : str) : str := rstrip (lstrip text).

Definition space : char := 32%N.

(** [' '.join(words)] *)
Fixpoint join (words : list str) : str :=
  match words with
  | [] => []
  | [w] => w
  | w :: words' => w ++ space :: join words'
  end.

(** [l[lo:hi]] for [0 <= lo] and [0 <= hi]. *)
Definition slice {A} (l : list A) (lo hi : nat) : list A :=
  firstn (hi - lo) (skipn lo l).

(** [enumerate(l)], starting at [i]. *)
Fixpoint enumerate_from {A} (i : nat) (l : list A) : list (nat * A) :=
  match l with
  | [] => []
  | a :: l' => (i, a) :: enumerate_from (S i) l'
  end.

Definition enumerate {A} (l : list A) : list (nat * A) := enumerate_from 0 l.

(** [c in word] for a one-character string [c]. *)
Definition contains (c : char) (word : str) : bool := existsb (eqb c) word.

(** ** Numbers *)

Local Open Scope Q_scope.

(** [max(a, b)]: the first of the largest arguments. *)
Definition max (a b : Q) : Q := if Qle_bool b a then a else b.

(** True division [a / b]. *)
Definition div (a b : Q) : result Q :=
  if Qeq_bool b 0 then Raise ZeroDivisionError else Ok (a / b).

(** Rounding to the nearest integer, ties to even. *)
Definition round_half_even (q : Q) : Z :=
  let f := Qfloor q in
  match Qcompare (q - inject_Z f) (1 # 2) with
  | Lt => f
  | Gt => (f + 1)%Z
  | Eq => if Z.even f then f else (f + 1)%Z
  end.

(** [round(q, 2)] *)
Definition round2 (q : Q) : Q := round_half_even (q * 100) # 100.

(** ** Dictionaries: association lists in insertion order, keys unique *)

Section Dict.
Context {K V : Type} `{EqB K}.

Definition dict : Type := list (K * V).

Fixpoint get (d : dict) (k : K) : option V :=
  match d with
  | [] => None
  | (k', v) :: d' => if eqb k k' then Some v else get d' k
  end.

(** [d.get(k, default)] *)
Definition get_default (d : dict) (k : K) (default : V) : V :=
  match get d k with Some v => v | None => default end.

(** [d[k] = v]: an existing key keeps its position, a new one is last. *)
Fixpoint set (d : dict) (k : K) (v : V) : dict :=
  match d with
  | [] => [(k, v)]
  | (k', v') :: d' => if eqb k k' then (k', v) :: d' else (k', v') :: set d' k v
  end.

Definition keys (d : dict) : list K := map fst d.
Definition values (d : dict) : list V := map snd d.
End Dict.

Arguments dict : clear implicits.

(** [set(l)]: the distinct elements of [l] (here in order of first
    occurrence; Python leaves the iteration order of a set open). *)
Fixpoint set_of {K} `{EqB K} (l : list K) : list K :=
  match l with
  | [] => []
  | k :: l' => k :: filter (fun k' => negb (eqb k' k)) (set_of l')
  end.

(** [sum(l)] over integers. *)
Definition sum (l : list Z) : Z := fold_left Z.add l 0%Z.

(** ** Sorting *)

(** [x] goes in front of the first element whose key is not larger. *)
Fixpoint insert_reverse {A} (key : A -> Q) (x : A) (l : list A) : list A :=
  match l with
  | [] => [x]
  | y :: l' =>
      if Qle_bool (key y) (key x) then x :: l
      else y :: insert_reverse key x l'
  end.

(** [sorted(l, key=key, reverse=True)].  Python's sort is stable, also with
    [reverse=True]; a stable sort is determined by its input, so insertion
    from the right computes the same list. *)
Definition sorted_reverse {A} (key : A -> Q) (l : list A) : list A :=
  fold_right (insert_reverse key) [] l.

(** [x] goes in front of the first element whose key is not smaller. *)
Fixpoint insert_sorted {A} (key : A -> Q) (x : A) (l : list A) : list A :=
  match l with
  | [] => [x]
  | y :: l' =>
      if Qle_bool (key x) (key y) then x :: l
      else y :: insert_sorted key x l'
  end.

(** [sorted(l, key=key)]: Python's stable sort in ascending order. *)
Definition sorted {A} (key : A -> Q) (l : list A) : list A :=
  fold_right (insert_sorted key) [] l.

End Py.

Import Py.

Declare Scope py_scope.
Notation "x <- e ;; k" := (Py.bind e (fun x => k))
  (at level 61, e at next level, right associativity) : py_scope.
Local Open Scope py_scope.

(* ================================================================== *)
(** * The alignment library used by the scripts *)
(* ================================================================== *)

Module Jiwer.

(** Modelled from the spec: [jiwer.wer], [jiwer.cer], [jiwer.process_words]
    and [jiwer.compute_measures] are imported by the scripts and are not part
    of the sources.  The definitions below follow the Normalizer, the
    Sequence Aligner and the Metric Calculator of the specification. *)

Record AlignmentResult : Type := {
  hits : nat;
  substitutions : nat;
  deletions : nat;
  insertions : nat
}.

Definition add_hit (a : AlignmentResult) : AlignmentResult :=
  {| hits := S (hits a); substitutions := substitutions a;
     deletions := deletions a; insertions := insertions a |}.

Definition add_substitution (a : AlignmentResult) : AlignmentResult :=
  {| hits := hits a; substitutions := S (substitutions a);
     deletions := deletions a; insertions := insertions a |}.

Definition add_deletion (a : AlignmentResult) : AlignmentResult :=
  {| hits := hits a; substitutions := substitutions a;
     deletions := S (deletions a); insertions := insertions a |}.

Definition add_insertion (a : AlignmentResult) : AlignmentResult :=
  {| hits := hits a; substitutions := substitutions a;
     deletions := deletions a; insertions := S (insertions a) |}.

Definition min3 (a b c : nat) : nat := Nat.min a (Nat.min b c).

Section Aligner.
Context {T : Type} `{EqB T}.
Variables reference hypothesis : list T.

(** 0 if [reference[i] == hypothesis[j]], else 1. *)
Definition sub_cost (i j : nat) : nat :=
  match nth_error reference i, nth_error hypothesis j with
  | Some r, Some h => if eqb r h then 0 else 1
  | _, _ => 1
  end.

(** Modelled from the spec: the cost table of the Sequence Aligner, built
    row by row.  Row 0 is [0, 1, ..., |hyp|]; in row [i'+1] the cell of
    column 0 is [i'+1] and the cell of column [j'+1] is the min of
    deletion (the cell above), insertion (the cell to the left) and
    match/substitution (the cell on the diagonal). *)
Definition next_cell (prev : list nat) (i' : nat) : nat -> nat :=
  fix row (j : nat) : nat :=
    match j with
    | 0 => S i'
    | S j' => min3 (nth (S j') prev 0 + 1)
                   (row j' + 1)
                   (nth j' prev 0 + sub_cost i' j')
    end.

Definition next_row (prev : list nat) (i' : nat) : list nat :=
  map (next_cell prev i') (seq 0 (S (length hypothesis))).

Fixpoint row (i : nat) : list nat :=
  match i with
  | 0 => seq 0 (S (length hypothesis))
  | S i' => next_row (row i') i'
  end.

(** The cell (i,j) of the (|ref|+1) x (|hyp|+1) table. *)
Definition cell (i j : nat) : nat := nth j (row i) 0.

(** Modelled from the spec: the backtrack of the Sequence Aligner from
    cell (i,j) to (0,0), preferring the diagonal, then deletion, then
    insertion, and accumulating the four counts. *)
Fixpoint backtrack (i : nat) : nat -> AlignmentResult :=
  match i with
  | 0 => fun j =>
      {| hits := 0; substitutions := 0; deletions := 0; insertions := j |}
  | S i' =>
      fix col (j : nat) : AlignmentResult :=
        match j with
        | 0 => {| hits := 0; substitutions := 0;
                  deletions := S i'; insertions := 0 |}
        | S j' =>
            if cell (S i') (S j') =? cell i' j' + sub_cost i' j'
            then (if sub_cost i' j' =? 0
                  then add_hit (backtrack i' j')
                  else add_substitution (backtrack i' j'))
            else if cell (S i') (S j') =? cell i' (S j') + 1
            then add_deletion (backtrack i' (S j'))
            else add_insertion (col j')
        end
  end.

(** Modelled from the spec: [align(reference, hypothesis)]. *)
Definition align : AlignmentResult :=
  backtrack (length reference) (length hypothesis).
End Aligner.

(** Modelled from the spec: the Normalizer in word mode (strip, collapse
    white space, split on white space). *)
Definition word_tokens (text : str) : list str := split text.

(** Modelled from the spec: the Normalizer in character mode (the code
    points of the stripped text with white space runs collapsed). *)
Definition char_tokens (text : str) : list char := join (split text).

Local Open Scope Q_scope.

Definition errors (a : AlignmentResult) : nat :=
  (substitutions a + deletions a + insertions a)%nat.

(** Modelled from the spec: the error rate of the Metric Calculator,
    [(substitutions + deletions + insertions) / reference_length].  An empty
    reference with a non-empty hypothesis is the flagged condition
    [EmptyReferenceError]; two empty sequences give zero. *)
Definition error_rate {T} `{EqB T} (reference hypothesis : list T) : result Q :=
  match reference, hypothesis with
  | [], [] => Ok 0
  | [], _ :: _ => Raise EmptyReferenceError
  | _ :: _, _ =>
      Ok (inject_Z (Z.of_nat (errors (align reference hypothesis)))
          / inject_Z (Z.of_nat (length reference)))
  end.

(** Modelled from the spec: [jiwer.wer(reference, hypothesis)]. *)
Definition wer (reference hypothesis : str) : result Q :=
  error_rate (word_tokens reference) (word_tokens hypothesis).

(** Modelled from the spec: [jiwer.cer(reference, hypothesis)]. *)
Definition cer (reference hypothesis : str) : result Q :=
  error_rate (char_tokens reference) (char_tokens hypothesis).

(** Modelled from the spec: [jiwer.process_words(reference, hypothesis)],
    the word-level alignment counts. *)
Definition process_words (reference hypothesis : str) : AlignmentResult :=
  align (word_tokens reference) (word_tokens hypothesis).

(** Modelled from the spec: [jiwer.compute_measures(reference, hypothesis)],
    the same word-level counts. *)
Definition compute_measures (reference hypothesis : str) : AlignmentResult :=
  align (word_tokens reference) (word_tokens hypothesis).

End Jiwer.

(* ================================================================== *)
(** * scripts/calculate_benchmarks.py *)
(* ================================================================== *)

Module CalculateBenchmarks.

Local Open Scope Q_scope.

Record Metrics : Type := {
  wer : Q;
  cer : Q;
  word_accuracy : Q;
  insertions : nat;
  deletions : nat;
  substitutions : nat;
  hits : nat
}.

(** The word accuracy computed from a WER value (line 30). *)
Definition word_accuracy_of (wer_value : Q) : Q :=
  Py.max 0 (1 - wer_value) * 100.

Definition calculate_metrics (reference hypothesis : str) : result Metrics :=
  wer_value <- Jiwer.wer reference hypothesis ;;
  cer_value <- Jiwer.cer reference hypothesis ;;
  let word_accuracy := word_accuracy_of wer_value in
  let output := Jiwer.process_words reference hypothesis in
  Ok {| wer := round2 (wer_value * 100);
        cer := round2 (cer_value * 100);
        word_accuracy := round2 word_accuracy;
        insertions := Jiwer.insertions output;
        deletions := Jiwer.deletions output;
        substitutions := Jiwer.substitutions output;
        hits := Jiwer.hits output |}.

(** An entry of [config['runs']] together with what the file system holds
    for it: whether the run directory exists, the content of
    [transcript.txt] if there is one, and the contents of the other
    [*.txt] files of the directory in glob order. *)
Record Run : Type := {
  r_run_id : str;
  r_run_type : str;
  r_provider : str;
  r_model : str;
  r_engine : str;
  r_completed : bool;
  r_dir_exists : bool;
  r_transcript_txt : option str;
  r_other_txt : list str
}.

Record RunResult : Type := {
  run_id : str;
  run_type : str;
  provider : str;
  model : str;
  engine : str;
  metrics : Metrics
}.

(** [find_transcript_file] followed by reading the file. *)
Definition find_transcript_file (run : Run) : result str :=
  match r_transcript_txt run with
  | Some content => Ok content
  | None =>
      match r_other_txt run with
      | content :: _ => Ok content
      | [] => Raise FileNotFoundError
      end
  end.

Definition load_text (content : str) : str := strip content.

(** The body of the [try] block of [main] for one run. *)
Definition evaluate_run (reference_text : str) (run : Run) : result RunResult :=
  transcript <- find_transcript_file run ;;
  let hypothesis_text := load_text transcript in
  metrics <- calculate_metrics reference_text hypothesis_text ;;
  Ok {| run_id := r_run_id run;
        run_type := r_run_type run;
        provider := r_provider run;
        model := r_model run;
        engine := r_engine run;
        metrics := metrics |}.

(** One iteration of the loop of [main] over [config['runs']]: incomplete
    runs and runs without a directory are skipped, and [except Exception]
    skips a run whose evaluation raised. *)
Definition main_step (reference_text : str) (results : list RunResult)
           (run : Run) : list RunResult :=
  if negb (r_completed run) then results
  else if negb (r_dir_exists run) then results
  else match evaluate_run reference_text run with
       | Ok result => results ++ [result]
       | Raise _ => results
       end.

(** The loop of [main] (lines 78-126). *)
Definition main_loop (reference_text : str) (runs : list Run) : list RunResult :=
  fold_left (main_step reference_text) runs [].

(** The summary order of [main] (line 149). *)
Definition sorted_results (results : list RunResult) : list RunResult :=
  sorted_reverse (fun x => word_accuracy (metrics x)) results.

End CalculateBenchmarks.

(* ================================================================== *)
(** * scripts/evaluate_transcripts.py *)
(* ================================================================== *)

Module EvaluateTranscripts.

Local Open Scope Q_scope.

Record Metrics : Type := {
  wer : Q;
  cer : Q;
  word_accuracy : Q;
  substitutions : nat;
  deletions : nat;
  insertions : nat;
  hits : nat;
  reference_words : nat;
  hypothesis_words : nat;
  werpy_wer : option Q
}.

Section WithWerpy.
(** [werpy.wer] is imported and not part of the sources: [Ok (Some q)]
    when it returns the float [q], [Ok None] for any other value. *)
Variable werpy_wer_of : str -> str -> result (option Q).

Definition calculate_metrics (reference hypothesis : str) : result Metrics :=
  wer <- Jiwer.wer reference hypothesis ;;
  cer <- Jiwer.cer reference hypothesis ;;
  let measures := Jiwer.compute_measures reference hypothesis in
  werpy_result <- werpy_wer_of reference hypothesis ;;
  Ok {| wer := wer;
        cer := cer;
        word_accuracy := 1 - wer;
        substitutions := Jiwer.substitutions measures;
        deletions := Jiwer.deletions measures;
        insertions := Jiwer.insertions measures;
        hits := Jiwer.hits measures;
        reference_words := length (split reference);
        hypothesis_words := length (split hypothesis);
        werpy_wer := werpy_result |}.
End WithWerpy.

(** An entry of [config['runs']] with what the file system holds for it:
    the content of [transcript.txt] of its output directory, if the file
    exists, and [processing_time_seconds] of [metadata.json], if that file
    exists and has the key. *)
Record Run : Type := {
  r_run_id : str;
  r_run_type : str;
  r_provider : str;
  r_model : str;
  r_engine : option str;
  r_completed : bool;
  r_transcript_txt : option str;
  r_processing_time : option Q
}.

Record RunResult : Type := {
  run_id : str;
  run_type : str;
  provider : str;
  model : str;
  engine : str;
  processing_time : Q;
  metrics : Metrics
}.

(** [load_transcript]: [None] when [transcript.txt] does not exist. *)
Definition load_transcript (run_config : Run) : option str :=
  match r_transcript_txt run_config with
  | None => None
  | Some content => Some (strip content)
  end.

Section EvaluateAllRuns.
Variable werpy_wer_of : str -> str -> result (option Q).

(** One iteration of the loop of [evaluate_all_runs] (lines 79-116); there
    is no [try] around [calculate_metrics]. *)
Definition evaluate_step (ground_truth : str) (results : list RunResult)
           (run : Run) : result (list RunResult) :=
  if negb (r_completed run) then Ok results
  else match load_transcript run with
       | None => Ok results
       | Some transcript =>
           metrics <- calculate_metrics werpy_wer_of ground_truth transcript ;;
           let processing_time :=
             match r_processing_time run with
             | Some t => t
             | None => 0
             end in
           Ok (results ++
               [{| run_id := r_run_id run;
                   run_type := r_run_type run;
                   provider := r_provider run;
                   model := r_model run;
                   engine := match r_engine run with
                             | Some e => e
                             | None => lit "unknown"
                             end;
                   processing_time := processing_time;
                   metrics := metrics |}])
       end.

(** The loop of [evaluate_all_runs]. *)
Definition evaluate_loop (ground_truth : str) (runs : list Run)
  : result (list RunResult) :=
  for_each (evaluate_step ground_truth) runs [].
End EvaluateAllRuns.

(** The order of the summary table of [generate_summary_report]
    (line 153). *)
Definition summary_order (results : list RunResult) : list RunResult :=
  sorted (fun x => wer (metrics x)) results.

End EvaluateTranscripts.

(* ================================================================== *)
(** * scripts/calculate_punctuation_accuracy.py *)
(* ================================================================== *)

Module CalculatePunctuationAccuracy.

Local Open Scope Q_scope.

(** The code points of the marks [. ! ? , ; : - —] and of the two quotes. *)
Definition full_stop : char := 46%N.
Definition exclamation : char := 33%N.
Definition question : char := 63%N.
Definition comma : char := 44%N.
Definition semicolon : char := 59%N.
Definition colon : char := 58%N.
Definition hyphen : char := 45%N.
Definition em_dash : char := 8212%N.
Definition double_quote : char := 34%N.
Definition apostrophe : char := 39%N.

(** [punctuation_marks] of [extract_punctuation_context] (line 19). *)
Definition punctuation_marks_context : list char :=
  [full_stop; exclamation; question; comma; semicolon; colon; hyphen; em_dash].

(** [punctuation_marks] of [count_punctuation] (line 43). *)
Definition punctuation_marks_count : list char :=
  [full_stop; exclamation; question; comma; semicolon; colon; hyphen; em_dash;
   double_quote; apostrophe].

Record MarkAccuracy : Type := {
  reference_count : Z;
  hypothesis_count : Z;
  count_accuracy : Q
}.

Record PunctuationMetrics : Type := {
  total_punctuation_reference : Z;
  total_punctuation_hypothesis : Z;
  total_punctuation_difference : Z;
  reference_percent : Q;
  hypothesis_percent : Q;
  mark_accuracy : dict char MarkAccuracy;
  context_match_accuracy : Q;
  overall_punctuation_score : Q
}.

Record RunResult : Type := {
  run_id : str;
  provider : str;
  model : str;
  metrics : PunctuationMetrics
}.

Definition count_punctuation (text : str) : dict char Z :=
  fold_left
    (fun counts char =>
       if existsb (eqb char) punctuation_marks_count
       then set counts char (get_default counts char 0 + 1)%Z
       else counts)
    text [].

(** The accuracy of one mark (lines 75-79). *)
Definition accuracy_of (ref_count hyp_count : Z) : result Q :=
  if (ref_count =? 0)%Z
  then Ok (if (hyp_count =? 0)%Z then 100 else 0)
  else
    q <- div (inject_Z (Z.abs (ref_count - hyp_count))) (inject_Z ref_count) ;;
    Ok (Py.max 0 (100 - q * 100)).

(** The lookup dictionaries of lines 92-102: context -> marks seen there. *)
Definition build_lookup (punct_context : list (str * char)) : dict str (list char) :=
  fold_left
    (fun d '(context, punct) =>
       let d' := match get d context with
                 | None => set d context []
                 | Some _ => d
                 end in
       set d' context (get_default d' context [] ++ [punct]))
    punct_context [].

(** The number of reference contexts whose marks the hypothesis repeats
    (lines 105-113). *)
Definition count_matched (ref_dict hyp_dict : dict str (list char)) : Z :=
  fold_left
    (fun matched_contexts '(context, ref_puncts) =>
       match get hyp_dict context with
       | Some hyp_puncts =>
           if eqb ref_puncts hyp_puncts
           then (matched_contexts + 1)%Z
           else matched_contexts
       | None => matched_contexts
       end)
    ref_dict 0%Z.

Section WithUnicodeTables.
(** [str.isalnum] on one code point and [str.lower]: their Unicode tables
    are not part of the sources. *)
Variable isalnum : char -> bool.
Variable lower : str -> str.

(** The context string built for the word at position [i]
    (lines 29-36). *)
Definition context_of (words : list str) (context_words i : nat) (word : str)
  : str :=
  let context_before := join (slice words (Nat.max 0 (i - context_words)) i) in
  let context_after :=
    join (slice words (i + 1)
                (Nat.min (length words) (i + context_words + 1))) in
  let word_clean := filter (fun c => isalnum c || isspace c) word in
  let context :=
    strip (context_before ++ space :: word_clean ++ space :: context_after) in
  lower context.

(** The pairs appended for one word: the inner loop over the marks. *)
Definition pairs_of_word (words : list str) (context_words i : nat) (word : str)
  : list (str * char) :=
  flat_map
    (fun punct =>
       if contains punct word
       then [(context_of words context_words i word, punct)]
       else [])
    punctuation_marks_context.

Definition extract_punctuation_context (text : str) (context_words : nat)
  : list (str * char) :=
  let words := split text in
  flat_map (fun '(i, word) => pairs_of_word words context_words i word)
           (enumerate words).

(** The loop of lines 70-85. *)
Definition mark_accuracy_of (ref_counts hyp_counts : dict char Z)
  : result (dict char MarkAccuracy) :=
  for_each
    (fun mark_accuracy mark =>
       let ref_count := get_default ref_counts mark 0%Z in
       let hyp_count := get_default hyp_counts mark 0%Z in
       accuracy <- accuracy_of ref_count hyp_count ;;
       Ok (set mark_accuracy mark
             {| reference_count := ref_count;
                hypothesis_count := hyp_count;
                count_accuracy := round2 accuracy |}))
    (set_of (keys ref_counts ++ keys hyp_counts)) [].

(** [matched / total * 100 if total > 0 else 0] (line 115). *)
Definition context_accuracy_of (matched_contexts : Z) (total_contexts : nat)
  : result Q :=
  if 0 <? total_contexts
  then q <- div (inject_Z matched_contexts)
                (inject_Z (Z.of_nat total_contexts)) ;;
       Ok (q * 100)
  else Ok 0.

(** [total / words * 100 if words > 0 else 0] (lines 121-122). *)
Definition density (total_punct : Z) (words : nat) : result Q :=
  if 0 <? words
  then q <- div (inject_Z total_punct) (inject_Z (Z.of_nat words)) ;;
       Ok (q * 100)
  else Ok 0.

(** The composite score before rounding (lines 137-138). *)
Definition overall_score (context_accuracy ref_density hyp_density : Q)
  : result Q :=
  q <- div (Qabs (ref_density - hyp_density)) (Py.max ref_density (1 # 100)) ;;
  Ok (context_accuracy * (7 # 10) + (100 - q * 100) * (3 # 10)).

Definition calculate_punctuation_metrics (reference hypothesis : str)
  : result PunctuationMetrics :=
  let ref_counts := count_punctuation reference in
  let hyp_counts := count_punctuation hypothesis in
  let total_ref_punct := sum (values ref_counts) in
  let total_hyp_punct := sum (values hyp_counts) in
  mark_accuracy <- mark_accuracy_of ref_counts hyp_counts ;;
  let ref_punct_context := extract_punctuation_context reference 2 in
  let hyp_punct_context := extract_punctuation_context hypothesis 2 in
  let ref_dict := build_lookup ref_punct_context in
  let hyp_dict := build_lookup hyp_punct_context in
  let matched_contexts := count_matched ref_dict hyp_dict in
  let total_contexts := length ref_dict in
  context_accuracy <- context_accuracy_of matched_contexts total_contexts ;;
  let ref_words := length (split reference) in
  let hyp_words := length (split hypothesis) in
  ref_density <- density total_ref_punct ref_words ;;
  hyp_density <- density total_hyp_punct hyp_words ;;
  score <- overall_score context_accuracy ref_density hyp_density ;;
  Ok {| total_punctuation_reference := total_ref_punct;
        total_punctuation_hypothesis := total_hyp_punct;
        total_punctuation_difference := (total_hyp_punct - total_ref_punct)%Z;
        reference_percent := round2 ref_density;
        hypothesis_percent := round2 hyp_density;
        mark_accuracy := mark_accuracy;
        context_match_accuracy := round2 context_accuracy;
        overall_punctuation_score := round2 score |}.
End WithUnicodeTables.

(** The ranking order of [main] (line 240). *)
Definition sorted_results (results : list RunResult) : list RunResult :=
  sorted_reverse (fun x => overall_punctuation_score (metrics x)) results.

(** [str.isalnum] and [str.lower] restricted to ASCII text, for examples. *)
Definition ascii_isalnum (c : char) : bool :=
  ((48 <=? c) && (c <=? 57) || (65 <=? c) && (c <=? 90)
   || (97 <=? c) && (c <=? 122))%N.

Definition ascii_lower (text : str) : str :=
  map (fun c => if ((65 <=? c) && (c <=? 90))%N then (c + 32)%N else c) text.

(** An entry of [config['runs']], which has the keys ['run_id'] and
    ['output_dir'], with what the file system answers for it.  [r_provider]
    and [r_model] are the values of the keys ['provider'] and ['model'],
    [None] when the key is missing.  [r_transcript_txt] is the outcome of
    looking for [transcript.txt] in the run directory and [r_other_txt] the
    outcome of [run_dir.glob("*.txt")] when [transcript.txt] is not there.
    A file is given by what opening and reading it as UTF-8 yields: its
    content, or the exception raised. *)
Record Run : Type := {
  r_run_id : str;
  r_provider : option str;
  r_model : option str;
  r_completed : bool;
  r_dir_exists : bool;
  r_transcript_txt : result (option (result str));
  r_other_txt : result (list (result str))
}.

(** [find_transcript_file]: the file chosen in the run directory. *)
Definition find_transcript_file (run : Run) : result (result str) :=
  transcript_file <- r_transcript_txt run ;;
  match transcript_file with
  | Some file => Ok file
  | None =>
      txt_files <- r_other_txt run ;;
      match txt_files with
      | file :: _ => Ok file
      | [] => Raise FileNotFoundError
      end
  end.

(** [load_text]: reading the file, then [strip]. *)
Definition load_text (file : result str) : result str :=
  content <- file ;;
  Ok (strip content).

(** [run[key]]: [KeyError] when the key is missing. *)
Definition subscript (value : option str) : result str :=
  match value with
  | Some v => Ok v
  | None => Raise KeyError
  end.

Section Main.
Variable isalnum : char -> bool.
Variable lower : str -> str.

(** The [try] block of [main] for one run up to [results.append]
    (lines 197-208).  The prints that follow the [append] cannot change
    the list of results. *)
Definition evaluate_run (reference_text : str) (run : Run) : result RunResult :=
  transcript_path <- find_transcript_file run ;;
  hypothesis_text <- load_text transcript_path ;;
  metrics <- calculate_punctuation_metrics isalnum lower
               reference_text hypothesis_text ;;
  provider <- subscript (r_provider run) ;;
  model <- subscript (r_model run) ;;
  Ok {| run_id := r_run_id run;
        provider := provider;
        model := model;
        metrics := metrics |}.

(** One iteration of the loop of [main] (lines 183-218): [except
    Exception] skips the run whatever was raised. *)
Definition main_step (reference_text : str) (results : list RunResult)
           (run : Run) : list RunResult :=
  if negb (r_completed run) then results
  else if negb (r_dir_exists run) then results
  else match evaluate_run reference_text run with
       | Ok result => results ++ [result]
       | Raise _ => results
       end.

Definition main_loop (reference_text : str) (runs : list Run) : list RunResult :=
  fold_left (main_step reference_text) runs [].
End Main.

End CalculatePunctuationAccuracy.

(* ================================================================== *)
(** * scripts/srt_to_text.py *)
(* ================================================================== *)

Module SrtToText.

Definition bom : char := 65279%N.
Definition newline : char := 10%N.

(** [content.lstrip('\ufeff')] *)
Fixpoint lstrip_bom (content : str) : str :=
  match content with
  | [] => []
  | c :: content' => if eqb c bom then lstrip_bom content' else content
  end.

(** The number of characters that the greedy [\s*\n] consumes at the start
    of [text]: the leading white space up to its last newline, if it has
    one. *)
Fixpoint blank_length (text : str) : option nat :=
  match text with
  | [] => None
  | c :: text' =>
      if isspace c
      then match blank_length text' with
           | Some n => Some (S n)
           | None => if eqb c newline then Some 1%nat else None
           end
      else None
  end.

(** [re.split(r'\n\s*\n', text)]: the pieces between the leftmost, longest
    matches.  [skip] characters of the current match are still to be
    dropped and [cur] holds the current piece, reversed. *)
Fixpoint re_split_blank (skip : nat) (cur : str) (text : str) : list str :=
  match text with
  | [] => [rev cur]
  | c :: text' =>
      match skip with
      | S k => re_split_blank k cur text'
      | O =>
          if eqb c newline
          then match blank_length text' with
               | Some n => rev cur :: re_split_blank n [] text'
               | None => re_split_blank 0 (c :: cur) text'
               end
          else re_split_blank 0 (c :: cur) text'
      end
  end.

(** [text.split(sep)] for a one-character separator. *)
Fixpoint split_on (sep : char) (cur : str) (text : str) : list str :=
  match text with
  | [] => [rev cur]
  | c :: text' =>
      if eqb c sep then rev cur :: split_on sep [] text'
      else split_on sep (c :: cur) text'
  end.

(** [re.sub(r'\s+', ' ', text)]: every run of white space becomes one
    space.  [in_space] tells that the run is already replaced. *)
Fixpoint collapse_from (in_space : bool) (text : str) : str :=
  match text with
  | [] => []
  | c :: text' =>
      if isspace c
      then (if in_space then collapse_from true text'
            else space :: collapse_from true text')
      else c :: collapse_from false text'
  end.

Definition re_sub_spaces (text : str) : str := collapse_from false text.

(** The subtitle blocks of the file content (lines 27-31). *)
Definition blocks_of (content : str) : list str :=
  re_split_blank 0 [] (strip (lstrip_bom content)).

(** The text lines of one block: its lines after the sequence number and
    the timestamp, stripped, the empty ones left out (lines 36-48). *)
Definition text_content (block : str) : list str :=
  let lines := split_on newline [] (strip block) in
  filter (fun line => match line with [] => false | _ => true end)
         (map strip (skipn 2 lines)).

(** [text_lines] after the loop over the blocks (lines 33-56). *)
Definition text_lines (blocks : list str) (join_fragments : bool) : list str :=
  flat_map
    (fun block =>
       match text_content block with
       | [] => []
       | content =>
           if join_fragments then [join content] else content
       end)
    blocks.

(** [srt_to_plaintext] on the content of the SRT file; the returned text. *)
Definition srt_to_plaintext (content : str) (join_fragments : bool) : str :=
  let blocks := blocks_of content in
  let plain_text := join (text_lines blocks join_fragments) in
  strip (re_sub_spaces plain_text).

End SrtToText.

(* ================================================================== *)
(** * Vocabulary of the statements *)
(* ================================================================== *)

(** An equality test decides equality. *)
Class EqBLaw (K : Type) `{EqB K} : Prop :=
  eqb_eq : forall a b : K, eqb a b = true <-> a = b.

(** [a] may stand before [b] in a descending order of [key]. *)
Definition descending {A} (key : A -> Q) (a b : A) : Prop :=
  (key b <= key a)%Q.

(** The records whose key equals [k], in the order of [l]. *)
Definition with_key {A} (key : A -> Q) (k : Q) (l : list A) : list A :=
  filter (fun x => Qeq_bool (key x) k) l.

(** The marks paired with [context], in the order of [pairs]. *)
Definition marks_at (context : str) (pairs : list (str * char)) : list char :=
  map snd (filter (fun p => eqb (fst p) context) pairs).

(** The accuracy of a mark with reference count [r] and hypothesis count
    [h], in the words of the specification: 100 if both counts are zero, 0
    if only the reference count is zero, and otherwise
    [max(0, 100 - |r - h| / r * 100)]. *)
Definition mark_accuracy_formula (r h : Z) : Q :=
  (if (r =? 0)%Z
   then (if (h =? 0)%Z then 100 else 0)
   else Py.max 0 (100 - inject_Z (Z.abs (r - h)) / inject_Z r * 100))%Q.

(** The entry of a mark whose accuracy follows [mark_accuracy_formula],
    reported to two decimals. *)
Definition entry_of (ref_counts hyp_counts : dict char Z) (mark : char)
  : CalculatePunctuationAccuracy.MarkAccuracy :=
  let ref_count := get_default ref_counts mark 0%Z in
  let hyp_count := get_default hyp_counts mark 0%Z in
  {| CalculatePunctuationAccuracy.reference_count := ref_count;
     CalculatePunctuationAccuracy.hypothesis_count := hyp_count;
     CalculatePunctuationAccuracy.count_accuracy :=
       round2 (mark_accuracy_formula ref_count hyp_count) |}.

(** The number of times [c] occurs in [word]. *)
Definition occurrences (c : char) (word : str) : nat :=
  length (filter (eqb c) word).

(** [a] may stand before [b] in an ascending order of [key]. *)
Definition ascending {A} (key : A -> Q) (a b : A) : Prop :=
  (key a <= key b)%Q.

(** The content of the transcript file chosen for the run, when there is
    such a file and it can be read. *)
Definition transcript_of (run : CalculatePunctuationAccuracy.Run) : option str :=
  match CalculatePunctuationAccuracy.find_transcript_file run with
  | Ok (Ok content) => Some content
  | _ => None
  end.

(** The run is completed, its directory exists, its transcript file can be
    read and its entry has the keys ['provider'] and ['model']. *)
Definition evaluable (run : CalculatePunctuationAccuracy.Run) : bool :=
  CalculatePunctuationAccuracy.r_completed run
  && CalculatePunctuationAccuracy.r_dir_exists run
  && match transcript_of run,
           CalculatePunctuationAccuracy.r_provider run,
           CalculatePunctuationAccuracy.r_model run with
     | Some _, Some _, Some _ => true
     | _, _, _ => false
     end.

(** [c] is one of the ten marks that [count_punctuation] counts. *)
Definition is_count_mark (c : char) : bool :=
  existsb (eqb c) CalculatePunctuationAccuracy.punctuation_marks_count.

(* ================================================================== *)
(** * Properties *)
(* ================================================================== *)

(** ** Equality tests *)

Lemma eqb_refl {K} `{EqBLaw K} (a : K) : eqb a a = true.
Proof. apply eqb_eq; reflexivity. Qed.

#[export] Instance char_EqBLaw : EqBLaw char.
Proof. intros a b. apply N.eqb_eq. Qed.

#[export] Instance list_EqBLaw {K} `{EqBLaw K} : EqBLaw (list K).
Proof.
  intros a. induction a as [|x a IH]; intros [|y b]; cbn;
    try (split; [discriminate | congruence]); try tauto.
  change (eqb x y && eqb a b = true <-> x :: a = y :: b).
  rewrite andb_true_iff, eqb_eq, IH. split.
  - intros [-> ->]; reflexivity.
  - intros E; inversion E; auto.
Qed.

(** ** Splitting *)

Lemma split_from_nonempty (text cur : str) :
  Forall (fun w => w <> []) (split_from cur text).
Proof.
  revert cur; induction text as [|c text IH]; intros cur; simpl.
  - destruct cur as [|x cur]; constructor; [|constructor].
    intros E. apply (f_equal (@length _)) in E.
    rewrite length_rev in E. discriminate.
  - destruct (isspace c); [|apply IH].
    destruct cur as [|x cur]; [apply IH|]. constructor; [|apply IH].
    intros E. apply (f_equal (@length _)) in E.
    rewrite length_rev in E. discriminate.
Qed.

Lemma join_nonempty (words : list str) :
  words <> [] -> Forall (fun w => w <> []) words -> join words <> [].
Proof.
  destruct words as [|w words]; [congruence|]. intros _ F.
  inversion F as [|? ? Hw _]; subst.
  destruct w as [|c w]; [congruence|].
  simpl. destruct words; discriminate.
Qed.

Lemma char_tokens_nonempty (text : str) :
  Jiwer.word_tokens text <> [] -> Jiwer.char_tokens text <> [].
Proof.
  intros Hne. apply join_nonempty; [exact Hne|]. apply split_from_nonempty.
Qed.

(** ** The aligner *)

Ltac counts :=
  unfold Jiwer.add_hit, Jiwer.add_substitution, Jiwer.add_deletion,
    Jiwer.add_insertion;
  cbn [Jiwer.hits Jiwer.substitutions Jiwer.deletions Jiwer.insertions].

Section AlignerFacts.
Context {T : Type} `{EqBLaw T}.
Variables reference hypothesis : list T.

Abbreviation cell := (Jiwer.cell reference hypothesis).
Abbreviation backtrack := (Jiwer.backtrack reference hypothesis).
Abbreviation sub_cost := (Jiwer.sub_cost reference hypothesis).

Lemma backtrack_S_S (i' j' : nat) :
  backtrack (S i') (S j') =
  if cell (S i') (S j') =? cell i' j' + sub_cost i' j'
  then (if sub_cost i' j' =? 0
        then Jiwer.add_hit (backtrack i' j')
        else Jiwer.add_substitution (backtrack i' j'))
  else if cell (S i') (S j') =? cell i' (S j') + 1
  then Jiwer.add_deletion (backtrack i' (S j'))
  else Jiwer.add_insertion (backtrack (S i') j').
Proof. reflexivity. Qed.

Lemma backtrack_S_0 (i' : nat) :
  backtrack (S i') 0 =
  {| Jiwer.hits := 0; Jiwer.substitutions := 0;
     Jiwer.deletions := S i'; Jiwer.insertions := 0 |}.
Proof. reflexivity. Qed.

(** Every backtrack path from (i,j) consumes i reference tokens and j
    hypothesis tokens. *)
Lemma backtrack_conservation (i j : nat) :
  Jiwer.hits (backtrack i j) + Jiwer.substitutions (backtrack i j)
    + Jiwer.deletions (backtrack i j) = i
  /\ Jiwer.hits (backtrack i j) + Jiwer.substitutions (backtrack i j)
       + Jiwer.insertions (backtrack i j) = j.
Proof.
  revert j; induction i as [|i' IHi]; intros j.
  - simpl; lia.
  - induction j as [|j' IHj].
    + rewrite backtrack_S_0; simpl; lia.
    + rewrite backtrack_S_S.
      destruct (cell (S i') (S j') =? cell i' j' + sub_cost i' j').
      * destruct (IHi j') as [Hd Hi].
        destruct (sub_cost i' j' =? 0); counts; lia.
      * destruct (cell (S i') (S j') =? cell i' (S j') + 1).
        -- destruct (IHi (S j')) as [Hd Hi]. counts; lia.
        -- destruct IHj as [Hd Hi]. counts; lia.
Qed.

Lemma align_conservation :
  let a := Jiwer.align reference hypothesis in
  Jiwer.hits a + Jiwer.substitutions a + Jiwer.deletions a = length reference
  /\ Jiwer.hits a + Jiwer.substitutions a + Jiwer.insertions a
     = length hypothesis.
Proof. apply backtrack_conservation. Qed.

Lemma nth_next_row (prev : list nat) (i' j : nat) :
  j <= length hypothesis ->
  nth j (Jiwer.next_row reference hypothesis prev i') 0
  = Jiwer.next_cell reference hypothesis prev i' j.
Proof.
  intros Hj. unfold Jiwer.next_row.
  rewrite (nth_indep _ 0 (Jiwer.next_cell reference hypothesis prev i' 0)).
  - rewrite map_nth. rewrite seq_nth by lia. reflexivity.
  - rewrite length_map, length_seq. lia.
Qed.

Lemma row_S (i' : nat) :
  Jiwer.row reference hypothesis (S i')
  = Jiwer.next_row reference hypothesis (Jiwer.row reference hypothesis i') i'.
Proof. reflexivity. Qed.

Lemma cell_0 (j : nat) : j <= length hypothesis -> cell 0 j = j.
Proof.
  intros Hj. unfold Jiwer.cell, Jiwer.row.
  rewrite seq_nth by lia. reflexivity.
Qed.

Lemma cell_S_0 (i' : nat) : cell (S i') 0 = S i'.
Proof.
  unfold Jiwer.cell. rewrite row_S, nth_next_row by lia. reflexivity.
Qed.

(** The recurrence of the table. *)
Lemma cell_S_S (i' j' : nat) :
  j' < length hypothesis ->
  cell (S i') (S j') =
  Jiwer.min3 (cell i' (S j') + 1) (cell (S i') j' + 1)
             (cell i' j' + sub_cost i' j').
Proof.
  intros Hj. unfold Jiwer.cell. rewrite row_S, !nth_next_row by lia.
  reflexivity.
Qed.
End AlignerFacts.

Section SelfAlignment.
Context {T : Type} `{EqBLaw T}.
Variable tokens : list T.

Lemma sub_cost_diag (i : nat) :
  i < length tokens -> Jiwer.sub_cost tokens tokens i i = 0.
Proof.
  intros Hi. unfold Jiwer.sub_cost.
  destruct (nth_error tokens i) as [t|] eqn:E.
  - now rewrite eqb_refl.
  - apply nth_error_None in E. lia.
Qed.

Lemma cell_diag (i : nat) :
  i <= length tokens -> Jiwer.cell tokens tokens i i = 0.
Proof.
  induction i as [|i IH]; intros Hi.
  - now apply cell_0.
  - rewrite cell_S_S by lia. rewrite IH, sub_cost_diag by lia.
    unfold Jiwer.min3. lia.
Qed.

Lemma backtrack_diag (i : nat) :
  i <= length tokens ->
  Jiwer.backtrack tokens tokens i i =
  {| Jiwer.hits := i; Jiwer.substitutions := 0;
     Jiwer.deletions := 0; Jiwer.insertions := 0 |}.
Proof.
  induction i as [|i IH]; intros Hi; [reflexivity|].
  rewrite backtrack_S_S.
  rewrite !cell_diag, sub_cost_diag by lia. simpl.
  rewrite IH by lia. reflexivity.
Qed.

Lemma align_self :
  Jiwer.align tokens tokens =
  {| Jiwer.hits := length tokens; Jiwer.substitutions := 0;
     Jiwer.deletions := 0; Jiwer.insertions := 0 |}.
Proof. apply backtrack_diag. lia. Qed.

Lemma error_rate_self :
  exists q, Jiwer.error_rate tokens tokens = Ok q /\ (q == 0)%Q.
Proof.
  unfold Jiwer.error_rate. destruct tokens as [|t l] eqn:E.
  - exists 0%Q. split; reflexivity.
  - eexists; split; [reflexivity|]. rewrite <- E.
    rewrite align_self. unfold Jiwer.errors; simpl.
    unfold Qdiv. apply Qmult_0_l.
Qed.
End SelfAlignment.

(** ** Numbers *)

Section Numbers.
Local Open Scope Q_scope.

Lemma max_ge_l (a b : Q) : a <= Py.max a b.
Proof.
  unfold Py.max. destruct (Qle_bool b a) eqn:E; [lra|].
  destruct (Qlt_le_dec a b) as [L|L]; [lra|].
  apply Qle_bool_iff in L. congruence.
Qed.

Lemma max_le (a b c : Q) : a <= c -> b <= c -> Py.max a b <= c.
Proof. unfold Py.max. destruct (Qle_bool b a); auto. Qed.

Lemma max_comp (a b b' : Q) : b == b' -> Py.max a b == Py.max a b'.
Proof.
  intros E. unfold Py.max.
  destruct (Qle_bool b a) eqn:E1, (Qle_bool b' a) eqn:E2;
    try reflexivity; try exact E.
  - apply Qle_bool_iff in E1. rewrite E in E1.
    apply Qle_bool_iff in E1. congruence.
  - apply Qle_bool_iff in E2. rewrite <- E in E2.
    apply Qle_bool_iff in E2. congruence.
Qed.

Lemma round_half_even_ge_floor (q : Q) : (Qfloor q <= round_half_even q)%Z.
Proof.
  unfold round_half_even.
  destruct (Qcompare _ _); [destruct (Z.even _)| |]; lia.
Qed.

Lemma round_half_even_le (q : Q) (n : Z) :
  q <= inject_Z n -> (round_half_even q <= n)%Z.
Proof.
  intros Hq.
  assert (Hf : (Qfloor q <= n)%Z).
  { rewrite <- (Qfloor_Z n). now apply Qfloor_resp_le. }
  unfold round_half_even.
  destruct (Qcompare (q - inject_Z (Qfloor q)) (1 # 2)) eqn:C.
  - destruct (Z.even _); [lia|].
    apply Qeq_alt in C.
    destruct (Z.eq_dec (Qfloor q) n) as [E|E]; [|lia].
    rewrite E in C. lra.
  - lia.
  - apply Qgt_alt in C.
    destruct (Z.eq_dec (Qfloor q) n) as [E|E]; [|lia].
    rewrite E in C. lra.
Qed.

Lemma round_half_even_comp (q q' : Q) :
  q == q' -> round_half_even q = round_half_even q'.
Proof.
  intros E. unfold round_half_even.
  rewrite (Qfloor_comp _ _ E).
  assert (E' : q - inject_Z (Qfloor q') == q' - inject_Z (Qfloor q'))
    by (rewrite E; reflexivity).
  rewrite (Qcompare_comp _ _ E' (1 # 2) (1 # 2) (Qeq_refl _)).
  reflexivity.
Qed.

Lemma round_half_even_Z (n : Z) : round_half_even (inject_Z n) = n.
Proof.
  unfold round_half_even. rewrite Qfloor_Z.
  assert (C : Qcompare (inject_Z n - inject_Z n) (1 # 2) = Lt)
    by (apply Qlt_alt; ring_simplify (inject_Z n - inject_Z n); reflexivity).
  now rewrite C.
Qed.

Lemma round2_comp (q q' : Q) : q == q' -> round2 q = round2 q'.
Proof.
  intros E. unfold round2. f_equal. apply round_half_even_comp.
  rewrite E; reflexivity.
Qed.

Lemma round2_nonneg (q : Q) : 0 <= q -> 0 <= round2 q.
Proof.
  intros Hq. unfold round2.
  pose proof (round_half_even_ge_floor (q * 100)) as G.
  assert (F : (0 <= Qfloor (q * 100))%Z).
  { change 0%Z with (Qfloor 0). apply Qfloor_resp_le. lra. }
  unfold Qle; simpl. lia.
Qed.

Lemma round2_le_100 (q : Q) : q <= 100 -> round2 q <= 100.
Proof.
  intros Hq. unfold round2.
  assert (L : (round_half_even (q * 100) <= 10000)%Z).
  { apply round_half_even_le. change (inject_Z 10000) with 10000. lra. }
  unfold Qle; simpl. lia.
Qed.

Lemma round2_100 (q : Q) : q == 100 -> round2 q == 100.
Proof.
  intros E. rewrite (round2_comp _ 100 E). reflexivity.
Qed.

Lemma round2_0 (q : Q) : q == 0 -> round2 q == 0.
Proof.
  intros E. rewrite (round2_comp _ 0 E). reflexivity.
Qed.
End Numbers.

(** ** Metrics of the benchmark scripts *)

Section MetricFacts.
Local Open Scope Q_scope.

Lemma error_rate_nonneg {T} `{EqB T} (reference hypothesis : list T) (q : Q) :
  Jiwer.error_rate reference hypothesis = Ok q -> 0 <= q.
Proof.
  unfold Jiwer.error_rate.
  destruct reference as [|r reference]; [destruct hypothesis|];
    intros E; inversion E; subst; clear E; [lra|].
  apply Qle_shift_div_l.
  - change 0 with (inject_Z 0). rewrite <- Zlt_Qlt. simpl length. lia.
  - rewrite Qmult_0_l. change 0 with (inject_Z 0). rewrite <- Zle_Qle. lia.
Qed.

Lemma error_rate_returns {T} `{EqB T} (reference hypothesis : list T) :
  reference <> [] -> exists q, Jiwer.error_rate reference hypothesis = Ok q.
Proof.
  destruct reference; [congruence|]. intros _. eexists; reflexivity.
Qed.


Lemma calculate_metrics_Ok (reference hypothesis : str)
      (m : CalculateBenchmarks.Metrics) :
  CalculateBenchmarks.calculate_metrics reference hypothesis = Ok m ->
  exists wer_value cer_value,
    Jiwer.wer reference hypothesis = Ok wer_value
    /\ Jiwer.cer reference hypothesis = Ok cer_value
    /\ m = {| CalculateBenchmarks.wer := round2 (wer_value * 100);
              CalculateBenchmarks.cer := round2 (cer_value * 100);
              CalculateBenchmarks.word_accuracy :=
                round2 (CalculateBenchmarks.word_accuracy_of wer_value);
              CalculateBenchmarks.insertions :=
                Jiwer.insertions (Jiwer.process_words reference hypothesis);
              CalculateBenchmarks.deletions :=
                Jiwer.deletions (Jiwer.process_words reference hypothesis);
              CalculateBenchmarks.substitutions :=
                Jiwer.substitutions (Jiwer.process_words reference hypothesis);
              CalculateBenchmarks.hits :=
                Jiwer.hits (Jiwer.process_words reference hypothesis) |}.
Proof.
  unfold CalculateBenchmarks.calculate_metrics.
  destruct (Jiwer.wer reference hypothesis) as [w|]; [|discriminate].
  destruct (Jiwer.cer reference hypothesis) as [c|]; [|discriminate].
  simpl. intros E; inversion E. exists w, c. auto.
Qed.

Lemma calculate_metrics_returns (reference hypothesis : str) :
  Jiwer.word_tokens reference <> [] ->
  exists m, CalculateBenchmarks.calculate_metrics reference hypothesis = Ok m.
Proof.
  intros Hne. unfold CalculateBenchmarks.calculate_metrics, Jiwer.wer, Jiwer.cer.
  destruct (error_rate_returns _ (Jiwer.word_tokens hypothesis) Hne) as [w ->].
  destruct (error_rate_returns _ (Jiwer.char_tokens hypothesis)
              (char_tokens_nonempty _ Hne)) as [c ->].
  simpl. eexists; reflexivity.
Qed.

Lemma word_accuracy_of_range (wer_value : Q) :
  0 <= wer_value ->
  0 <= CalculateBenchmarks.word_accuracy_of wer_value <= 100.
Proof.
  intros Hw. unfold CalculateBenchmarks.word_accuracy_of.
  pose proof (max_ge_l 0 (1 - wer_value)) as L.
  assert (U : Py.max 0 (1 - wer_value) <= 1) by (apply max_le; lra).
  split; lra.
Qed.

Lemma evaluate_metrics_Ok (werpy_wer_of : str -> str -> result (option Q))
      (reference hypothesis : str) (m : EvaluateTranscripts.Metrics) :
  EvaluateTranscripts.calculate_metrics werpy_wer_of reference hypothesis = Ok m ->
  Jiwer.wer reference hypothesis = Ok (EvaluateTranscripts.wer m)
  /\ EvaluateTranscripts.word_accuracy m = 1 - EvaluateTranscripts.wer m
  /\ EvaluateTranscripts.hits m
     = Jiwer.hits (Jiwer.compute_measures reference hypothesis)
  /\ EvaluateTranscripts.substitutions m
     = Jiwer.substitutions (Jiwer.compute_measures reference hypothesis)
  /\ EvaluateTranscripts.deletions m
     = Jiwer.deletions (Jiwer.compute_measures reference hypothesis)
  /\ EvaluateTranscripts.insertions m
     = Jiwer.insertions (Jiwer.compute_measures reference hypothesis)
  /\ EvaluateTranscripts.reference_words m = length (split reference)
  /\ EvaluateTranscripts.hypothesis_words m = length (split hypothesis).
Proof.
  unfold EvaluateTranscripts.calculate_metrics.
  destruct (Jiwer.wer reference hypothesis) as [w|]; [|discriminate].
  destruct (Jiwer.cer reference hypothesis) as [c|]; [|discriminate].
  simpl. destruct (werpy_wer_of reference hypothesis); [|discriminate].
  simpl. intros E; inversion E; subst; simpl. repeat split; reflexivity.
Qed.

Lemma main_step_acc (reference_text : str)
      (acc : list CalculateBenchmarks.RunResult) (run : CalculateBenchmarks.Run) :
  CalculateBenchmarks.main_step reference_text acc run
  = acc ++ CalculateBenchmarks.main_step reference_text [] run.
Proof.
  unfold CalculateBenchmarks.main_step.
  destruct (negb _); [now rewrite app_nil_r|].
  destruct (negb _); [now rewrite app_nil_r|].
  destruct (CalculateBenchmarks.evaluate_run _ _);
    [reflexivity | now rewrite app_nil_r].
Qed.

Lemma main_fold_acc (reference_text : str) (runs : list CalculateBenchmarks.Run)
      (acc : list CalculateBenchmarks.RunResult) :
  fold_left (CalculateBenchmarks.main_step reference_text) runs acc
  = acc ++ fold_left (CalculateBenchmarks.main_step reference_text) runs [].
Proof.
  revert acc; induction runs as [|run runs IH]; intros acc; simpl.
  - now rewrite app_nil_r.
  - rewrite IH, (IH (CalculateBenchmarks.main_step reference_text [] run)).
    rewrite main_step_acc, app_assoc. reflexivity.
Qed.

Lemma main_loop_app (reference_text : str)
      (before after : list CalculateBenchmarks.Run) :
  CalculateBenchmarks.main_loop reference_text (before ++ after)
  = CalculateBenchmarks.main_loop reference_text before
    ++ CalculateBenchmarks.main_loop reference_text after.
Proof.
  unfold CalculateBenchmarks.main_loop.
  rewrite fold_left_app. apply main_fold_acc.
Qed.

End MetricFacts.

(** C1.  The alignment counts satisfy the conservation law:
    hits + substitutions + deletions is the number of reference tokens and
    hits + substitutions + insertions is the number of hypothesis tokens.
    This holds for the word-level alignment of every pair of texts and for
    the counts returned by [calculate_metrics] of both scripts, measured
    against the word tokens of the two arguments; in
    [evaluate_transcripts.py] the fields [reference_words] and
    [hypothesis_words] are these two numbers.  [calculate_metrics] returns
    whenever the reference has a word (in [evaluate_transcripts.py]: and
    [werpy.wer] returns). *)
Theorem C1_alignment_conservation (reference hypothesis : str) :
  (let a := Jiwer.process_words reference hypothesis in
   Jiwer.hits a + Jiwer.substitutions a + Jiwer.deletions a
     = length (Jiwer.word_tokens reference)
   /\ Jiwer.hits a + Jiwer.substitutions a + Jiwer.insertions a
      = length (Jiwer.word_tokens hypothesis))
  /\ (forall m,
        CalculateBenchmarks.calculate_metrics reference hypothesis = Ok m ->
        CalculateBenchmarks.hits m + CalculateBenchmarks.substitutions m
          + CalculateBenchmarks.deletions m
          = length (Jiwer.word_tokens reference)
        /\ CalculateBenchmarks.hits m + CalculateBenchmarks.substitutions m
             + CalculateBenchmarks.insertions m
           = length (Jiwer.word_tokens hypothesis))
  /\ (forall werpy_wer_of m,
        EvaluateTranscripts.calculate_metrics werpy_wer_of reference hypothesis
          = Ok m ->
        EvaluateTranscripts.hits m + EvaluateTranscripts.substitutions m
          + EvaluateTranscripts.deletions m
          = length (Jiwer.word_tokens reference)
        /\ EvaluateTranscripts.hits m + EvaluateTranscripts.substitutions m
             + EvaluateTranscripts.insertions m
           = length (Jiwer.word_tokens hypothesis)
        /\ EvaluateTranscripts.reference_words m
           = length (Jiwer.word_tokens reference)
        /\ EvaluateTranscripts.hypothesis_words m
           = length (Jiwer.word_tokens hypothesis))
  /\ (Jiwer.word_tokens reference <> [] ->
      exists m, CalculateBenchmarks.calculate_metrics reference hypothesis = Ok m)
  /\ (forall werpy_wer_of werpy_result,
        Jiwer.word_tokens reference <> [] ->
        werpy_wer_of reference hypothesis = Ok werpy_result ->
        exists m,
          EvaluateTranscripts.calculate_metrics werpy_wer_of reference hypothesis
          = Ok m).
Proof.
  pose proof (align_conservation (Jiwer.word_tokens reference)
                                 (Jiwer.word_tokens hypothesis)) as A.
  split; [exact A|]. split; [|split; [|split]].
  - intros m E. apply calculate_metrics_Ok in E.
    destruct E as (w & c & _ & _ & ->). exact A.
  - intros werpy_wer_of m E. apply evaluate_metrics_Ok in E.
    destruct E as (_ & _ & Hh & Hs & Hd & Hi & Hr & Hy).
    rewrite Hh, Hs, Hd, Hi, Hr, Hy.
    destruct A as [A1 A2]. repeat split; [exact A1|exact A2].
  - apply calculate_metrics_returns.
  - intros werpy_wer_of werpy_result Hne W.
    unfold EvaluateTranscripts.calculate_metrics, Jiwer.wer, Jiwer.cer.
    destruct (error_rate_returns _ (Jiwer.word_tokens hypothesis) Hne) as [w ->].
    destruct (error_rate_returns _ (Jiwer.char_tokens hypothesis)
                (char_tokens_nonempty _ Hne)) as [c ->].
    cbn [Py.bind]. rewrite W. eexists; reflexivity.
Qed.

(** The law at reference "the quick brown fox", hypothesis "the quick fox",
    for both scripts. *)
Lemma C1_alignment_conservation_witness :
  exists m m',
    CalculateBenchmarks.calculate_metrics
      (lit "the quick brown fox") (lit "the quick fox") = Ok m
    /\ EvaluateTranscripts.calculate_metrics (fun _ _ => Ok None)
         (lit "the quick brown fox") (lit "the quick fox") = Ok m'
    /\ (CalculateBenchmarks.hits m + CalculateBenchmarks.substitutions m
          + CalculateBenchmarks.deletions m = 4
        /\ CalculateBenchmarks.hits m + CalculateBenchmarks.substitutions m
             + CalculateBenchmarks.insertions m = 3)
    /\ (EvaluateTranscripts.hits m' + EvaluateTranscripts.substitutions m'
          + EvaluateTranscripts.deletions m' = 4
        /\ EvaluateTranscripts.hits m' + EvaluateTranscripts.substitutions m'
             + EvaluateTranscripts.insertions m' = 3
        /\ EvaluateTranscripts.reference_words m' = 4
        /\ EvaluateTranscripts.hypothesis_words m' = 3).
Proof.
  destruct (C1_alignment_conservation
              (lit "the quick brown fox") (lit "the quick fox"))
    as (_ & B & E & _).
  eexists. eexists.
  split; [vm_compute; reflexivity|]. split; [vm_compute; reflexivity|].
  split.
  - apply B. vm_compute; reflexivity.
  - apply (E (fun _ _ => Ok None)). vm_compute; reflexivity.
Defined.

(** C5 (as stated, refuted).  In [evaluate_transcripts.py] the word accuracy
    of reference "a b c" against hypothesis "x y z w v u" (WER 2) is -1:
    it is not [max(0, 1 - wer) * 100] and it is not in [0, 100]. *)
Lemma C5_word_accuracy_counterexample :
  exists m,
    EvaluateTranscripts.calculate_metrics (fun _ _ => Ok (Some (2 # 1)))
      (lit "a b c") (lit "x y z w v u") = Ok m
    /\ (EvaluateTranscripts.wer m == 2)%Q
    /\ (EvaluateTranscripts.word_accuracy m == -1)%Q
    /\ ~ (EvaluateTranscripts.word_accuracy m
          == Py.max 0 (1 - EvaluateTranscripts.wer m) * 100)%Q
    /\ ~ (0 <= EvaluateTranscripts.word_accuracy m)%Q.
Proof.
  eexists. split; [vm_compute; reflexivity|].
  repeat split; vm_compute; congruence.
Qed.

(** C5 (amended).  [calculate_metrics] of [calculate_benchmarks.py] returns
    as word accuracy [max(0, 1 - wer) * 100] rounded to two decimals, which
    lies in [0, 100]; [calculate_metrics] of [evaluate_transcripts.py]
    returns [1 - wer], a fraction that is not clamped. *)
Theorem C5_word_accuracy (reference hypothesis : str) :
  (forall m,
     CalculateBenchmarks.calculate_metrics reference hypothesis = Ok m ->
     exists wer_value,
       Jiwer.wer reference hypothesis = Ok wer_value
       /\ CalculateBenchmarks.word_accuracy m
          = round2 (Py.max 0 (1 - wer_value) * 100)
       /\ (0 <= CalculateBenchmarks.word_accuracy m <= 100)%Q)
  /\ (forall werpy_wer_of m,
        EvaluateTranscripts.calculate_metrics werpy_wer_of reference hypothesis
          = Ok m ->
        Jiwer.wer reference hypothesis = Ok (EvaluateTranscripts.wer m)
        /\ EvaluateTranscripts.word_accuracy m
           = (1 - EvaluateTranscripts.wer m)%Q).
Proof.
  split.
  - intros m E. apply calculate_metrics_Ok in E.
    destruct E as (w & c & Hw & _ & ->). exists w. simpl.
    split; [exact Hw|]. split; [reflexivity|].
    pose proof (error_rate_nonneg _ _ _ Hw) as Hpos.
    destruct (word_accuracy_of_range w Hpos) as [L U].
    split; [now apply round2_nonneg | now apply round2_le_100].
  - intros werpy_wer_of m E. apply evaluate_metrics_Ok in E.
    destruct E as (Hw & Ha & _). split; assumption.
Qed.

(** The amended C5 at reference "the quick brown fox", hypothesis
    "the quick fox": the word accuracy is 75. *)
Lemma C5_word_accuracy_witness :
  exists m,
    CalculateBenchmarks.calculate_metrics
      (lit "the quick brown fox") (lit "the quick fox") = Ok m
    /\ exists wer_value,
         Jiwer.wer (lit "the quick brown fox") (lit "the quick fox")
           = Ok wer_value
         /\ CalculateBenchmarks.word_accuracy m
            = round2 (Py.max 0 (1 - wer_value) * 100)
         /\ (0 <= CalculateBenchmarks.word_accuracy m <= 100)%Q.
Proof.
  eexists. split; [vm_compute; reflexivity|].
  apply (proj1 (C5_word_accuracy
                  (lit "the quick brown fox") (lit "the quick fox"))).
  vm_compute; reflexivity.
Defined.



(** ** Ranking *)

Section Sorting.
Context {A : Type}.
Variable key : A -> Q.

Lemma insert_reverse_perm (x : A) (l : list A) :
  Permutation (x :: l) (insert_reverse key x l).
Proof.
  induction l as [|y l IH]; simpl; [reflexivity|].
  destruct (Qle_bool (key y) (key x)); [reflexivity|].
  rewrite perm_swap. now apply perm_skip.
Qed.

Lemma sorted_reverse_perm (l : list A) :
  Permutation l (sorted_reverse key l).
Proof.
  induction l as [|x l IH]; simpl; [constructor|].
  rewrite <- insert_reverse_perm. now apply perm_skip.
Qed.

Lemma insert_reverse_sorted (x : A) (l : list A) :
  StronglySorted (descending key) l ->
  StronglySorted (descending key) (insert_reverse key x l).
Proof.
  induction l as [|y l IH]; intros S; simpl.
  - constructor; constructor.
  - inversion S as [|? ? S' F]; subst.
    destruct (Qle_bool (key y) (key x)) eqn:E.
    + apply Qle_bool_iff in E. constructor; [exact S|].
      constructor; [exact E|].
      eapply Forall_impl; [|exact F].
      intros z Hz. unfold descending in *. lra.
    + constructor; [now apply IH|].
      assert (L : (key x < key y)%Q).
      { destruct (Qlt_le_dec (key x) (key y)) as [L|L]; [exact L|].
        apply Qle_bool_iff in L. congruence. }
      eapply Permutation_Forall; [apply insert_reverse_perm|].
      constructor; [|exact F]. unfold descending. lra.
Qed.

Lemma sorted_reverse_sorted (l : list A) :
  StronglySorted (descending key) (sorted_reverse key l).
Proof.
  induction l as [|x l IH]; simpl; [constructor|].
  now apply insert_reverse_sorted.
Qed.

Lemma insert_reverse_stable (k : Q) (x : A) (l : list A) :
  with_key key k (insert_reverse key x l) = with_key key k (x :: l).
Proof.
  induction l as [|y l IH]; [reflexivity|].
  simpl insert_reverse.
  destruct (Qle_bool (key y) (key x)) eqn:E; [reflexivity|].
  unfold with_key in *. simpl in *. rewrite IH.
  destruct (Qeq_bool (key y) k) eqn:Ey; [|reflexivity].
  destruct (Qeq_bool (key x) k) eqn:Ex; [|reflexivity].
  apply Qeq_bool_iff in Ex, Ey.
  assert (L : Qle_bool (key y) (key x) = true)
    by (apply Qle_bool_iff; rewrite Ex, Ey; apply Qle_refl).
  congruence.
Qed.

Lemma sorted_reverse_stable (k : Q) (l : list A) :
  with_key key k (sorted_reverse key l) = with_key key k l.
Proof.
  induction l as [|x l IH]; [reflexivity|].
  simpl sorted_reverse. rewrite insert_reverse_stable.
  unfold with_key in *. simpl. rewrite IH. reflexivity.
Qed.
End Sorting.

(** C9.  The summary ranking of both scripts is a rearrangement of the
    input records, in descending order of the metric (word accuracy, or
    overall punctuation score), and for every score the records with that
    score stand in their input order; word accuracies 90, 95, 90 of runs
    r1, r2, r3 are ranked r2, r1, r3. *)
Theorem C9_ranking_stable :
  (forall results : list CalculateBenchmarks.RunResult,
     let key x := CalculateBenchmarks.word_accuracy (CalculateBenchmarks.metrics x) in
     Permutation results (CalculateBenchmarks.sorted_results results)
     /\ StronglySorted (descending key) (CalculateBenchmarks.sorted_results results)
     /\ forall k, with_key key k (CalculateBenchmarks.sorted_results results)
                  = with_key key k results)
  /\ (forall results : list CalculatePunctuationAccuracy.RunResult,
        let key x := CalculatePunctuationAccuracy.overall_punctuation_score
                       (CalculatePunctuationAccuracy.metrics x) in
        Permutation results (CalculatePunctuationAccuracy.sorted_results results)
        /\ StronglySorted (descending key)
             (CalculatePunctuationAccuracy.sorted_results results)
        /\ forall k, with_key key k (CalculatePunctuationAccuracy.sorted_results results)
                     = with_key key k results)
  /\ (let run id accuracy :=
        {| CalculateBenchmarks.run_id := lit id;
           CalculateBenchmarks.run_type := [];
           CalculateBenchmarks.provider := [];
           CalculateBenchmarks.model := [];
           CalculateBenchmarks.engine := [];
           CalculateBenchmarks.metrics :=
             {| CalculateBenchmarks.wer := 0;
                CalculateBenchmarks.cer := 0;
                CalculateBenchmarks.word_accuracy := accuracy;
                CalculateBenchmarks.insertions := 0;
                CalculateBenchmarks.deletions := 0;
                CalculateBenchmarks.substitutions := 0;
                CalculateBenchmarks.hits := 0 |} |} in
      CalculateBenchmarks.sorted_results
        [run "r1"%string 90%Q; run "r2"%string 95%Q; run "r3"%string 90%Q]
      = [run "r2"%string 95%Q; run "r1"%string 90%Q; run "r3"%string 90%Q]).
Proof.
  split; [|split].
  - intros results key. unfold CalculateBenchmarks.sorted_results.
    split; [apply sorted_reverse_perm|].
    split; [apply sorted_reverse_sorted|]. intros k. apply sorted_reverse_stable.
  - intros results key. unfold CalculatePunctuationAccuracy.sorted_results.
    split; [apply sorted_reverse_perm|].
    split; [apply sorted_reverse_sorted|]. intros k. apply sorted_reverse_stable.
  - reflexivity.
Qed.

(** ** Dictionaries *)

Section DictFacts.
Context {K V : Type} `{EqBLaw K}.
Implicit Types (d : dict K V) (k : K) (v : V).

Lemma eqb_false_neq (a b : K) : eqb a b = false -> a <> b.
Proof. intros E Hab. rewrite <- eqb_eq in Hab. congruence. Qed.

Lemma eqb_sym (a b : K) : eqb a b = eqb b a.
Proof.
  destruct (eqb a b) eqn:E1, (eqb b a) eqn:E2; try reflexivity.
  - apply eqb_eq in E1. subst. rewrite eqb_refl in E2. discriminate.
  - apply eqb_eq in E2. subst. rewrite eqb_refl in E1. discriminate.
Qed.

Lemma get_set d k v k' :
  get (set d k v) k' = if eqb k' k then Some v else get d k'.
Proof.
  induction d as [|[k0 v0] d IH]; simpl.
  - reflexivity.
  - destruct (eqb k k0) eqn:E; simpl.
    + apply eqb_eq in E. subst k0. destruct (eqb k' k); reflexivity.
    + rewrite IH. destruct (eqb k' k0) eqn:E0; [|reflexivity].
      destruct (eqb k' k) eqn:E1; [|reflexivity].
      apply eqb_eq in E0, E1. subst. rewrite eqb_refl in E. discriminate.
Qed.

Lemma set_nonempty d k v : set d k v <> [].
Proof.
  destruct d as [|[k0 v0] d]; simpl; [discriminate|].
  destruct (eqb k k0); discriminate.
Qed.

Lemma in_keys_set d k v k' :
  In k' (keys (set d k v)) <-> k' = k \/ In k' (keys d).
Proof.
  induction d as [|[k0 v0] d IH]; simpl.
  - intuition.
  - destruct (eqb k k0) eqn:E; simpl.
    + apply eqb_eq in E. subst. intuition.
    + fold (keys (set d k v)). fold (keys d). rewrite IH. intuition.
Qed.

Lemma nodup_keys_set d k v : NoDup (keys d) -> NoDup (keys (set d k v)).
Proof.
  induction d as [|[k0 v0] d IH]; simpl; intros N.
  - constructor; [intros []|constructor].
  - inversion N as [|? ? Hnot N']; subst.
    destruct (eqb k k0) eqn:E; simpl.
    + constructor; assumption.
    + constructor; [|now apply IH].
      fold (keys (set d k v)). rewrite in_keys_set. intros [->|Hin].
      * rewrite eqb_refl in E. discriminate.
      * contradiction.
Qed.

Lemma get_none_not_in d k : get d k = None -> ~ In k (keys d).
Proof.
  induction d as [|[k0 v0] d IH]; simpl; [tauto|].
  destruct (eqb k k0) eqn:E; [discriminate|].
  intros G [->|Hin]; [rewrite eqb_refl in E; discriminate|].
  now apply IH.
Qed.

Lemma get_in_nodup d k v :
  NoDup (keys d) -> In (k, v) d -> get d k = Some v.
Proof.
  induction d as [|[k0 v0] d IH]; simpl; intros N Hin; [contradiction|].
  inversion N as [|? ? Hnot N']; subst.
  destruct Hin as [E|Hin].
  - inversion E; subst. now rewrite eqb_refl.
  - destruct (eqb k k0) eqn:E.
    + apply eqb_eq in E. subst. exfalso. apply Hnot.
      change k0 with (fst (k0, v)). now apply in_map.
    + now apply IH.
Qed.

Lemma get_some_in d k v : get d k = Some v -> In k (keys d).
Proof.
  induction d as [|[k0 v0] d IH]; simpl; [discriminate|].
  destruct (eqb k k0) eqn:E.
  - apply eqb_eq in E. auto.
  - intros G. right. now apply IH.
Qed.

Lemma in_keys_get d k : In k (keys d) -> exists v, get d k = Some v.
Proof.
  induction d as [|[k0 v0] d IH]; simpl; [contradiction|].
  intros Hin. destruct (eqb k k0) eqn:E; [eauto|].
  destruct Hin as [->|Hin]; [rewrite eqb_refl in E; discriminate|].
  now apply IH.
Qed.
End DictFacts.

Lemma for_each_returns {A S : Type} (body : S -> A -> result S) (l : list A) :
  (forall s a, exists s', body s a = Ok s') ->
  forall s, exists s', for_each body l s = Ok s'.
Proof.
  intros Hbody. induction l as [|a l IH]; intros s; simpl.
  - eexists; reflexivity.
  - destruct (Hbody s a) as [s' ->]. simpl. apply IH.
Qed.

(** An invariant of the state is kept by a loop whose body keeps it. *)
Lemma for_each_invariant {A S : Type} (body : S -> A -> result S)
      (P : S -> Prop) (l : list A) :
  (forall s a s', P s -> body s a = Ok s' -> P s') ->
  forall s s', P s -> for_each body l s = Ok s' -> P s'.
Proof.
  intros Hbody. induction l as [|a l IH]; intros s s' Hs; simpl.
  - intros E; inversion E; subst; exact Hs.
  - destruct (body s a) as [s1|] eqn:E1; simpl; [|discriminate].
    apply IH. eapply Hbody; eauto.
Qed.

Lemma in_set_of {K} `{EqBLaw K} (l : list K) (k : K) :
  In k (set_of l) <-> In k l.
Proof.
  induction l as [|x l IH]; simpl; [tauto|].
  rewrite filter_In, IH. split.
  - intros [->|[Hin _]]; auto.
  - intros [->|Hin]; [auto|].
    destruct (eqb k x) eqn:E.
    + apply eqb_eq in E. auto.
    + right. split; [exact Hin|reflexivity].
Qed.

(** ** Punctuation metrics *)

Section PunctuationFacts.
Import CalculatePunctuationAccuracy.
Local Open Scope Q_scope.

Lemma div_nonzero (a b : Q) : ~ b == 0 -> div a b = Ok (a / b).
Proof.
  intros Hb. unfold div. destruct (Qeq_bool b 0) eqn:E; [|reflexivity].
  apply Qeq_bool_iff in E. contradiction.
Qed.

Lemma inject_Z_nonzero (z : Z) : z <> 0%Z -> ~ inject_Z z == 0.
Proof.
  intros Hz E. apply Hz. unfold Qeq in E. simpl in E. lia.
Qed.

Lemma max_ge_r (a b : Q) : b <= Py.max a b.
Proof.
  unfold Py.max. destruct (Qle_bool b a) eqn:E; [|lra].
  now apply Qle_bool_iff in E.
Qed.

Lemma accuracy_of_formula (r h : Z) :
  accuracy_of r h = Ok (mark_accuracy_formula r h).
Proof.
  unfold accuracy_of, mark_accuracy_formula.
  destruct (r =? 0)%Z eqn:E; [reflexivity|].
  apply Z.eqb_neq in E.
  rewrite div_nonzero by now apply inject_Z_nonzero.
  reflexivity.
Qed.

Lemma context_accuracy_of_returns (matched : Z) (total : nat) :
  exists q, context_accuracy_of matched total = Ok q
            /\ (total = 0%nat -> q = 0)
            /\ (total <> 0%nat ->
                q = inject_Z matched / inject_Z (Z.of_nat total) * 100).
Proof.
  unfold context_accuracy_of. destruct total as [|n].
  - exists 0. simpl. repeat split; congruence.
  - change (0 <? S n)%nat with true. cbv iota.
    rewrite div_nonzero by (apply inject_Z_nonzero; lia).
    eexists. split; [reflexivity|]. split; [discriminate|reflexivity].
Qed.

Lemma density_returns (total_punct : Z) (words : nat) :
  exists q, density total_punct words = Ok q.
Proof.
  unfold density. destruct words as [|n].
  - eexists; reflexivity.
  - change (0 <? S n)%nat with true. cbv iota.
    rewrite div_nonzero by (apply inject_Z_nonzero; lia).
    eexists; reflexivity.
Qed.

Lemma overall_score_returns (context_accuracy ref_density hyp_density : Q) :
  overall_score context_accuracy ref_density hyp_density
  = Ok (context_accuracy * (7 # 10)
        + (100 - Qabs (ref_density - hyp_density)
                 / Py.max ref_density (1 # 100) * 100) * (3 # 10)).
Proof.
  unfold overall_score. rewrite div_nonzero; [reflexivity|].
  pose proof (max_ge_r ref_density (1 # 100)). lra.
Qed.

Lemma mark_loop (ref_counts hyp_counts : dict char Z) (marks : list char) :
  forall acc,
  exists mark_accuracy,
    for_each
      (fun mark_accuracy mark =>
         let ref_count := get_default ref_counts mark 0%Z in
         let hyp_count := get_default hyp_counts mark 0%Z in
         accuracy <- accuracy_of ref_count hyp_count ;;
         Ok (set mark_accuracy mark
               {| reference_count := ref_count;
                  hypothesis_count := hyp_count;
                  count_accuracy := round2 accuracy |}))
      marks acc = Ok mark_accuracy
    /\ (forall mark,
          In mark (keys mark_accuracy) <-> In mark marks \/ In mark (keys acc))
    /\ (forall mark e,
          get mark_accuracy mark = Some e ->
          (In mark marks /\ e = entry_of ref_counts hyp_counts mark)
          \/ get acc mark = Some e).
Proof.
  induction marks as [|m marks IH]; intros acc.
  - exists acc. simpl. split; [reflexivity|]. split; [tauto|auto].
  - cbn [for_each]. cbv zeta. rewrite accuracy_of_formula. cbn [bind].
    destruct (IH (set acc m (entry_of ref_counts hyp_counts m)))
      as (ma & E & Hkeys & Hget).
    exists ma. split; [exact E|]. split.
    + intros mark. rewrite Hkeys, in_keys_set. simpl. intuition.
    + intros mark e G. destruct (Hget mark e G) as [[Hin ->]|G'].
      * left. split; [now right|reflexivity].
      * rewrite get_set in G'. destruct (eqb mark m) eqn:Em.
        -- apply eqb_eq in Em. subst. inversion G'; subst.
           left. split; [now left|reflexivity].
        -- now right.
Qed.

Lemma mark_accuracy_of_returns (ref_counts hyp_counts : dict char Z) :
  exists mark_accuracy,
    mark_accuracy_of ref_counts hyp_counts = Ok mark_accuracy
    /\ (forall mark,
          In mark (keys mark_accuracy)
          <-> In mark (keys ref_counts ++ keys hyp_counts))
    /\ (forall mark e,
          get mark_accuracy mark = Some e ->
          e = entry_of ref_counts hyp_counts mark).
Proof.
  destruct (mark_loop ref_counts hyp_counts
              (set_of (keys ref_counts ++ keys hyp_counts)) [])
    as (ma & E & Hkeys & Hget).
  exists ma. split; [exact E|]. split.
  - intros mark. rewrite Hkeys, in_set_of. simpl. tauto.
  - intros mark e G. destruct (Hget mark e G) as [[_ ->]|G'];
      [reflexivity|discriminate].
Qed.
End PunctuationFacts.

Section PunctuationMetricsFacts.
Import CalculatePunctuationAccuracy.
Local Open Scope Q_scope.
Variable isalnum : char -> bool.
Variable lower : str -> str.

Abbreviation extract := (extract_punctuation_context isalnum lower).
Abbreviation metrics_of := (calculate_punctuation_metrics isalnum lower).

(** The value returned by [calculate_punctuation_metrics], part by part. *)
Lemma calculate_punctuation_metrics_returns (reference hypothesis : str) :
  exists mark_accuracy context_accuracy ref_density hyp_density,
    mark_accuracy_of (count_punctuation reference)
                     (count_punctuation hypothesis) = Ok mark_accuracy
    /\ context_accuracy_of
         (count_matched (build_lookup (extract reference 2))
                        (build_lookup (extract hypothesis 2)))
         (length (build_lookup (extract reference 2))) = Ok context_accuracy
    /\ density (sum (values (count_punctuation reference)))
               (length (split reference)) = Ok ref_density
    /\ density (sum (values (count_punctuation hypothesis)))
               (length (split hypothesis)) = Ok hyp_density
    /\ metrics_of reference hypothesis
       = Ok {| total_punctuation_reference :=
                 sum (values (count_punctuation reference));
               total_punctuation_hypothesis :=
                 sum (values (count_punctuation hypothesis));
               total_punctuation_difference :=
                 (sum (values (count_punctuation hypothesis))
                  - sum (values (count_punctuation reference)))%Z;
               reference_percent := round2 ref_density;
               hypothesis_percent := round2 hyp_density;
               mark_accuracy := mark_accuracy;
               context_match_accuracy := round2 context_accuracy;
               overall_punctuation_score :=
                 round2 (context_accuracy * (7 # 10)
                         + (100 - Qabs (ref_density - hyp_density)
                                  / Py.max ref_density (1 # 100) * 100)
                           * (3 # 10)) |}.
Proof.
  destruct (mark_accuracy_of_returns (count_punctuation reference)
              (count_punctuation hypothesis)) as (ma & Ema & _).
  destruct (context_accuracy_of_returns
              (count_matched (build_lookup (extract reference 2))
                             (build_lookup (extract hypothesis 2)))
              (length (build_lookup (extract reference 2))))
    as (ca & Eca & _).
  destruct (density_returns (sum (values (count_punctuation reference)))
              (length (split reference))) as (rd & Erd).
  destruct (density_returns (sum (values (count_punctuation hypothesis)))
              (length (split hypothesis))) as (hd & Ehd).
  exists ma, ca, rd, hd. repeat (split; [assumption|]).
  unfold calculate_punctuation_metrics.
  rewrite Ema. cbn [bind]. rewrite Eca. cbn [bind].
  rewrite Erd. cbn [bind]. rewrite Ehd. cbn [bind].
  rewrite overall_score_returns. reflexivity.
Qed.
End PunctuationMetricsFacts.

(** C2 (the code at the failing input).  For the reference "a, b c d" and
    the hypothesis "a, b. c, d." the reported overall punctuation score is
    -60, outside [0, 100]. *)
Theorem C2_overall_score_unclamped :
  exists m,
    CalculatePunctuationAccuracy.calculate_punctuation_metrics
      CalculatePunctuationAccuracy.ascii_isalnum
      CalculatePunctuationAccuracy.ascii_lower
      (lit "a, b c d") (lit "a, b. c, d.") = Ok m
    /\ (CalculatePunctuationAccuracy.overall_punctuation_score m == -60)%Q
    /\ ~ (0 <= CalculatePunctuationAccuracy.overall_punctuation_score m)%Q.
Proof.
  eexists. split; [vm_compute; reflexivity|].
  split; vm_compute; congruence.
Qed.

(** C10.  [calculate_punctuation_metrics] returns a result for every pair
    of strings: none of its divisions raises. *)
Theorem C10_punctuation_metrics_total
        (isalnum : char -> bool) (lower : str -> str)
        (reference hypothesis : str) :
  exists m,
    CalculatePunctuationAccuracy.calculate_punctuation_metrics
      isalnum lower reference hypothesis = Ok m.
Proof.
  destruct (calculate_punctuation_metrics_returns isalnum lower
              reference hypothesis) as (ma & ca & rd & hd & _ & _ & _ & _ & E).
  eexists. exact E.
Qed.

(** C6.  The accuracy computed for a mark with reference count [r] and
    hypothesis count [h] is 100 if both are zero, 0 if only [r] is zero and
    otherwise [max(0, 100 - |r - h| / r * 100)]; the marks with an entry in
    [mark_accuracy] are those counted in either text, and the entry of a
    mark holds its two counts and this accuracy as reported by
    [round(accuracy, 2)].  Counts 10 and 10 give 100, counts 10 and 0 give 0,
    counts 0 and 0 give 100. *)
Theorem C6_mark_count_accuracy :
  (forall r h : Z,
     CalculatePunctuationAccuracy.accuracy_of r h
     = Ok (mark_accuracy_formula r h))
  /\ (forall isalnum lower reference hypothesis m mark,
        CalculatePunctuationAccuracy.calculate_punctuation_metrics
          isalnum lower reference hypothesis = Ok m ->
        (In mark (keys (CalculatePunctuationAccuracy.count_punctuation reference)
                  ++ keys (CalculatePunctuationAccuracy.count_punctuation hypothesis))
         <-> exists e,
               get (CalculatePunctuationAccuracy.mark_accuracy m) mark = Some e)
        /\ (forall e,
              get (CalculatePunctuationAccuracy.mark_accuracy m) mark = Some e ->
              e = entry_of
                    (CalculatePunctuationAccuracy.count_punctuation reference)
                    (CalculatePunctuationAccuracy.count_punctuation hypothesis)
                    mark))
  /\ (mark_accuracy_formula 10 10 == 100
      /\ round2 (mark_accuracy_formula 10 10) == 100
      /\ mark_accuracy_formula 10 0 == 0
      /\ round2 (mark_accuracy_formula 10 0) == 0
      /\ mark_accuracy_formula 0 0 == 100
      /\ round2 (mark_accuracy_formula 0 0) == 100)%Q.
Proof.
  split; [exact accuracy_of_formula|]. split.
  - intros isalnum lower reference hypothesis m mark E.
    destruct (calculate_punctuation_metrics_returns isalnum lower
                reference hypothesis) as (ma & ca & rd & hd & Ema & _ & _ & _ & E').
    rewrite E' in E. inversion E; subst m; clear E.
    cbn [CalculatePunctuationAccuracy.mark_accuracy].
    destruct (mark_accuracy_of_returns
                (CalculatePunctuationAccuracy.count_punctuation reference)
                (CalculatePunctuationAccuracy.count_punctuation hypothesis))
      as (ma' & Ema' & Hkeys & Hget).
    rewrite Ema in Ema'. inversion Ema'; subst ma'; clear Ema'.
    split.
    + rewrite <- Hkeys. split.
      * apply in_keys_get.
      * intros [e G]. eapply get_some_in; eauto.
    + apply Hget.
  - repeat split; vm_compute; reflexivity.
Qed.

(** C6 at reference "a, b, c," (three commas) and hypothesis "a, b, c"
    (two commas): the entry of the comma holds 3, 2 and 66.67. *)
Lemma C6_mark_count_accuracy_witness :
  exists m e,
    CalculatePunctuationAccuracy.calculate_punctuation_metrics
      CalculatePunctuationAccuracy.ascii_isalnum
      CalculatePunctuationAccuracy.ascii_lower
      (lit "a, b, c,") (lit "a, b, c") = Ok m
    /\ get (CalculatePunctuationAccuracy.mark_accuracy m)
           CalculatePunctuationAccuracy.comma = Some e
    /\ e = entry_of
             (CalculatePunctuationAccuracy.count_punctuation (lit "a, b, c,"))
             (CalculatePunctuationAccuracy.count_punctuation (lit "a, b, c"))
             CalculatePunctuationAccuracy.comma.
Proof.
  eexists. eexists. split; [vm_compute; reflexivity|].
  split; [vm_compute; reflexivity|].
  eapply (proj1 (proj2 C6_mark_count_accuracy)
            CalculatePunctuationAccuracy.ascii_isalnum
            CalculatePunctuationAccuracy.ascii_lower
            (lit "a, b, c,") (lit "a, b, c")).
  - vm_compute; reflexivity.
  - vm_compute; reflexivity.
Defined.

(** ** Context extraction and grouping *)

Section ExtractionFacts.
Import CalculatePunctuationAccuracy.
Variable isalnum : char -> bool.
Variable lower : str -> str.

Abbreviation extract := (extract_punctuation_context isalnum lower).
Abbreviation context_at := (context_of isalnum lower).
Abbreviation pairs_at := (pairs_of_word isalnum lower).

Lemma in_enumerate_from {A} (l : list A) (n i : nat) (a : A) :
  In (i, a) (enumerate_from n l)
  <-> (n <= i)%nat /\ nth_error l (i - n) = Some a.
Proof.
  revert n; induction l as [|x l IH]; intros n; simpl.
  - split; [tauto|]. intros [_ E]. destruct (i - n)%nat; discriminate.
  - rewrite IH. split.
    + intros [E|[Hle E]].
      * inversion E; subst. split; [lia|]. now rewrite Nat.sub_diag.
      * split; [lia|]. replace (i - n)%nat with (S (i - S n)) by lia.
        exact E.
    + intros [Hle E]. destruct (i - n)%nat as [|k] eqn:Ek.
      * left. inversion E; subst. f_equal. lia.
      * right. split; [lia|]. replace (i - S n)%nat with k by lia. exact E.
Qed.

Lemma pairs_of_word_map (words : list str) (cw i : nat) (word : str) :
  pairs_at words cw i word
  = map (fun punct => (context_at words cw i word, punct))
        (filter (fun punct => contains punct word) punctuation_marks_context).
Proof.
  unfold pairs_of_word.
  induction punctuation_marks_context as [|p l IH]; simpl; [reflexivity|].
  rewrite IH. destruct (contains p word); reflexivity.
Qed.

Lemma in_pairs_of_word (words : list str) (cw i : nat) (word : str)
      (context : str) (punct : char) :
  In (context, punct) (pairs_at words cw i word)
  <-> context = context_at words cw i word
      /\ In punct punctuation_marks_context
      /\ contains punct word = true.
Proof.
  rewrite pairs_of_word_map, in_map_iff. split.
  - intros (p & E & Hin). inversion E; subst.
    apply filter_In in Hin. tauto.
  - intros (-> & Hin & Hc). exists punct. split; [reflexivity|].
    apply filter_In. tauto.
Qed.

Lemma in_extract (text : str) (cw : nat) (context : str) (punct : char) :
  In (context, punct) (extract text cw)
  <-> exists i word,
        nth_error (split text) i = Some word
        /\ context = context_at (split text) cw i word
        /\ In punct punctuation_marks_context
        /\ contains punct word = true.
Proof.
  unfold extract_punctuation_context. rewrite in_flat_map. split.
  - intros ([i word] & Hin & Hp).
    apply in_enumerate_from in Hin. destruct Hin as [_ Hn].
    rewrite Nat.sub_0_r in Hn.
    apply in_pairs_of_word in Hp. exists i, word. tauto.
  - intros (i & word & Hn & Hc & Hin & Hw). exists (i, word). split.
    + apply in_enumerate_from. rewrite Nat.sub_0_r. split; [lia|exact Hn].
    + apply in_pairs_of_word. tauto.
Qed.

(** In a list without repetition, one pair per element that passes [f]. *)
Lemma one_pair_per_mark (context : str) (f : char -> bool) (marks : list char)
      (punct : char) :
  NoDup marks ->
  length (filter (fun pair => eqb (snd pair) punct)
                 (map (fun p => (context, p)) (filter f marks)))
  = if f punct && existsb (eqb punct) marks then 1%nat else 0%nat.
Proof.
  induction marks as [|p marks IH]; intros N.
  - simpl. now rewrite andb_false_r.
  - inversion N as [|? ? Hnot N']; subst. specialize (IH N').
    cbn [filter existsb].
    destruct (eqb punct p) eqn:E.
    + apply eqb_eq in E. subst p.
      assert (X : existsb (eqb punct) marks = false).
      { destruct (existsb (eqb punct) marks) eqn:X; [|reflexivity].
        apply existsb_exists in X. destruct X as (x & Hx & Ex).
        apply eqb_eq in Ex. subst. contradiction. }
      rewrite X, andb_false_r in IH. rewrite orb_true_l, andb_true_r.
      destruct (f punct); [|exact IH].
      cbn [map filter snd]. rewrite eqb_refl. cbn [length]. now rewrite IH.
    + rewrite orb_false_l.
      destruct (f p); [|exact IH].
      cbn [map filter snd]. rewrite (eqb_sym p punct), E. exact IH.
Qed.

Lemma get_build_step (d : dict str (list char)) (context : str)
      (punct : char) (k : str) :
  get (let d' := match get d context with
                 | None => set d context []
                 | Some _ => d
                 end in
       set d' context (get_default d' context [] ++ [punct])) k
  = if eqb k context
    then Some (get_default d context [] ++ [punct])
    else get d k.
Proof.
  cbv zeta. rewrite get_set.
  destruct (eqb k context) eqn:E.
  - f_equal. f_equal. unfold get_default.
    destruct (get d context) eqn:G; [now rewrite G|].
    now rewrite get_set, eqb_refl.
  - destruct (get d context); [reflexivity|].
    now rewrite get_set, E.
Qed.

Lemma build_lookup_from (pairs : list (str * char)) (d : dict str (list char))
      (k : str) :
  get (fold_left
         (fun d '(context, punct) =>
            let d' := match get d context with
                      | None => set d context []
                      | Some _ => d
                      end in
            set d' context (get_default d' context [] ++ [punct]))
         pairs d) k
  = match get d k with
    | Some l => Some (l ++ marks_at k pairs)
    | None => match marks_at k pairs with
              | [] => None
              | l => Some l
              end
    end.
Proof.
  revert d; induction pairs as [|[context punct] pairs IH]; intros d.
  - simpl. destruct (get d k); [now rewrite app_nil_r|reflexivity].
  - cbn [fold_left]. rewrite IH, get_build_step.
    unfold marks_at. cbn [filter fst].
    rewrite (eqb_sym context k).
    destruct (eqb k context) eqn:E; [|reflexivity].
    apply eqb_eq in E. subst context. cbn [map snd].
    unfold get_default. destruct (get d k).
    + now rewrite <- app_assoc.
    + reflexivity.
Qed.

(** The marks grouped under a context are the marks of its pairs, in the
    order of the pairs and with repetitions. *)
Lemma get_build_lookup (pairs : list (str * char)) (k : str) :
  get (build_lookup pairs) k
  = match marks_at k pairs with
    | [] => None
    | l => Some l
    end.
Proof. unfold build_lookup. now rewrite build_lookup_from. Qed.
End ExtractionFacts.

(** C3 (as stated, refuted).  The token "don't" of the text "don't stop"
    contains the apostrophe, a mark of the ten-mark alphabet, and context
    extraction yields no pair at all for that text. *)
Lemma C3_context_alphabet_counterexample :
  In (lit "don't") (split (lit "don't stop"))
  /\ contains CalculatePunctuationAccuracy.apostrophe (lit "don't") = true
  /\ In CalculatePunctuationAccuracy.apostrophe
        CalculatePunctuationAccuracy.punctuation_marks_count
  /\ ~ (exists context,
          In (context, CalculatePunctuationAccuracy.apostrophe)
             (CalculatePunctuationAccuracy.extract_punctuation_context
                CalculatePunctuationAccuracy.ascii_isalnum
                CalculatePunctuationAccuracy.ascii_lower
                (lit "don't stop") 2)).
Proof.
  split; [vm_compute; auto|]. split; [reflexivity|].
  split; [vm_compute; auto 12|].
  intros [context Hin]. vm_compute in Hin. exact Hin.
Qed.

(** C3 (amended).  Context extraction considers the eight marks
    [. ! ? , ; : - —]: a pair (context, mark) is extracted exactly when some
    token of the text contains the mark and the mark is one of the eight,
    the context being the one built at that token; no pair carries the
    double quote or the apostrophe, which only [count_punctuation]
    recognises. *)
Theorem C3_context_alphabet
        (isalnum : char -> bool) (lower : str -> str) (text : str) (cw : nat) :
  (forall context punct,
     In (context, punct)
        (CalculatePunctuationAccuracy.extract_punctuation_context
           isalnum lower text cw)
     <-> exists i word,
           nth_error (split text) i = Some word
           /\ context = CalculatePunctuationAccuracy.context_of
                          isalnum lower (split text) cw i word
           /\ In punct CalculatePunctuationAccuracy.punctuation_marks_context
           /\ contains punct word = true)
  /\ (forall context,
        ~ In (context, CalculatePunctuationAccuracy.double_quote)
             (CalculatePunctuationAccuracy.extract_punctuation_context
                isalnum lower text cw)
        /\ ~ In (context, CalculatePunctuationAccuracy.apostrophe)
                (CalculatePunctuationAccuracy.extract_punctuation_context
                   isalnum lower text cw))
  /\ (forall punct,
        In punct CalculatePunctuationAccuracy.punctuation_marks_count
        <-> In punct CalculatePunctuationAccuracy.punctuation_marks_context
            \/ punct = CalculatePunctuationAccuracy.double_quote
            \/ punct = CalculatePunctuationAccuracy.apostrophe).
Proof.
  split; [intros context punct; apply in_extract|]. split.
  - intros context. split; intros Hin; apply in_extract in Hin;
      destruct Hin as (i & word & _ & _ & Hin & _);
      vm_compute in Hin; intuition discriminate.
  - intros punct. unfold CalculatePunctuationAccuracy.punctuation_marks_count,
      CalculatePunctuationAccuracy.punctuation_marks_context.
    simpl. intuition.
Qed.

(** C4 (as stated, refuted).  The token "a.." of the text "a.. b" contains
    the full stop twice, and context extraction yields a single pair. *)
Lemma C4_pairs_and_grouping_counterexample :
  split (lit "a.. b") = [lit "a.."; lit "b"]
  /\ occurrences CalculatePunctuationAccuracy.full_stop (lit "a..") = 2%nat
  /\ CalculatePunctuationAccuracy.extract_punctuation_context
       CalculatePunctuationAccuracy.ascii_isalnum
       CalculatePunctuationAccuracy.ascii_lower (lit "a.. b") 2
     = [(lit "a b", CalculatePunctuationAccuracy.full_stop)].
Proof. repeat split; vm_compute; reflexivity. Qed.

(** C4 (amended).  For a token, context extraction emits one pair per
    distinct mark of the eight that occurs in the token, in the order of the
    mark list, whatever the number of occurrences; the pairs of the text are
    those of its tokens in token order; and under each context the lookup
    dictionary holds the marks of the pairs with that context, in the order
    of the pairs and with repetitions. *)
Theorem C4_pairs_and_grouping
        (isalnum : char -> bool) (lower : str -> str) :
  (forall words cw i word,
     CalculatePunctuationAccuracy.pairs_of_word isalnum lower words cw i word
     = map (fun punct =>
              (CalculatePunctuationAccuracy.context_of
                 isalnum lower words cw i word, punct))
           (filter (fun punct => contains punct word)
                   CalculatePunctuationAccuracy.punctuation_marks_context))
  /\ (forall words cw i word punct,
        length (filter (fun pair => eqb (snd pair) punct)
                  (CalculatePunctuationAccuracy.pairs_of_word
                     isalnum lower words cw i word))
        = if contains punct word
             && existsb (eqb punct)
                  CalculatePunctuationAccuracy.punctuation_marks_context
          then 1%nat else 0%nat)
  /\ (forall text cw,
        CalculatePunctuationAccuracy.extract_punctuation_context
          isalnum lower text cw
        = flat_map
            (fun '(i, word) =>
               CalculatePunctuationAccuracy.pairs_of_word
                 isalnum lower (split text) cw i word)
            (enumerate (split text)))
  /\ (forall pairs context,
        get (CalculatePunctuationAccuracy.build_lookup pairs) context
        = match marks_at context pairs with
          | [] => None
          | marks => Some marks
          end).
Proof.
  split; [apply pairs_of_word_map|]. split; [|split].
  - intros words cw i word punct. rewrite pairs_of_word_map.
    apply (one_pair_per_mark _ (fun punct => contains punct word)).
    unfold CalculatePunctuationAccuracy.punctuation_marks_context.
    repeat constructor; simpl; intuition discriminate.
  - reflexivity.
  - apply get_build_lookup.
Qed.

(** ** A text evaluated against itself *)

Section SelfEvaluation.
Import CalculatePunctuationAccuracy.
Local Open Scope Q_scope.

Abbreviation build_step :=
  (fun (d : dict str (list char)) '(context, punct) =>
     let d' := match get d context with
               | None => set d context []
               | Some _ => d
               end in
     set d' context (get_default d' context [] ++ [punct])).

Lemma build_step_nonempty (d : dict str (list char)) (pair : str * char) :
  build_step d pair <> [].
Proof. destruct pair as [context punct]. apply set_nonempty. Qed.

Lemma build_step_nodup (d : dict str (list char)) (pair : str * char) :
  NoDup (keys d) -> NoDup (keys (build_step d pair)).
Proof.
  destruct pair as [context punct]. intros N. cbv zeta.
  apply nodup_keys_set. destruct (get d context); [exact N|].
  now apply nodup_keys_set.
Qed.

Lemma build_fold_nonempty (pairs : list (str * char)) (d : dict str (list char)) :
  d <> [] -> fold_left build_step pairs d <> [].
Proof.
  revert d; induction pairs as [|pair pairs IH]; intros d Hd; [exact Hd|].
  cbn [fold_left]. apply IH, build_step_nonempty.
Qed.

Lemma build_fold_nodup (pairs : list (str * char)) (d : dict str (list char)) :
  NoDup (keys d) -> NoDup (keys (fold_left build_step pairs d)).
Proof.
  revert d; induction pairs as [|pair pairs IH]; intros d Hd; [exact Hd|].
  cbn [fold_left]. apply IH, build_step_nodup, Hd.
Qed.

Lemma build_lookup_nonempty (pairs : list (str * char)) :
  pairs <> [] -> build_lookup pairs <> [].
Proof.
  destruct pairs as [|pair pairs]; [congruence|]. intros _.
  unfold build_lookup. cbn [fold_left].
  apply build_fold_nonempty, build_step_nonempty.
Qed.

Lemma build_lookup_nodup (pairs : list (str * char)) :
  NoDup (keys (build_lookup pairs)).
Proof. apply build_fold_nodup. constructor. Qed.

Lemma count_matched_from (d : dict str (list char))
      (l : list (str * list char)) (acc : Z) :
  (forall k v, In (k, v) l -> get d k = Some v) ->
  fold_left
    (fun matched_contexts '(context, ref_puncts) =>
       match get d context with
       | Some hyp_puncts =>
           if eqb ref_puncts hyp_puncts
           then (matched_contexts + 1)%Z
           else matched_contexts
       | None => matched_contexts
       end)
    l acc
  = (acc + Z.of_nat (length l))%Z.
Proof.
  revert acc; induction l as [|[k v] l IH]; intros acc Hl.
  - simpl. lia.
  - cbn [fold_left]. rewrite (Hl k v) by now left.
    rewrite eqb_refl, IH by (intros; apply Hl; now right).
    cbn [length]. lia.
Qed.

(** Every context of a dictionary with unique keys matches itself. *)
Lemma count_matched_self (d : dict str (list char)) :
  NoDup (keys d) -> count_matched d d = Z.of_nat (length d).
Proof.
  intros N. unfold count_matched. rewrite count_matched_from; [lia|].
  intros k v Hin. now apply get_in_nodup.
Qed.

Lemma mark_accuracy_formula_same (r : Z) : mark_accuracy_formula r r == 100.
Proof.
  unfold mark_accuracy_formula. destruct (r =? 0)%Z; [reflexivity|].
  rewrite Z.sub_diag. simpl Z.abs.
  rewrite (max_comp 0 _ 100); [reflexivity|].
  unfold Qdiv. change (inject_Z 0) with 0. ring.
Qed.

Lemma ratio_same (n : nat) :
  n <> 0%nat ->
  inject_Z (Z.of_nat n) / inject_Z (Z.of_nat n) * 100 == 100.
Proof.
  intros Hn. field. apply inject_Z_nonzero. lia.
Qed.

Lemma score_same (context_accuracy density : Q) :
  context_accuracy * (7 # 10)
  + (100 - Qabs (density - density) / Py.max density (1 # 100) * 100)
    * (3 # 10)
  == context_accuracy * (7 # 10) + 30.
Proof.
  assert (Z0 : Qabs (density - density) == 0).
  { assert (E : density - density == 0) by ring. now rewrite E. }
  rewrite Z0. unfold Qdiv. ring.
Qed.
End SelfEvaluation.

(** C8 (as stated, refuted).  The text "hello world" evaluated against
    itself has context match accuracy 0 and overall score 30, not 100. *)
Lemma C8_self_evaluation_counterexample :
  exists m,
    CalculatePunctuationAccuracy.calculate_punctuation_metrics
      CalculatePunctuationAccuracy.ascii_isalnum
      CalculatePunctuationAccuracy.ascii_lower
      (lit "hello world") (lit "hello world") = Ok m
    /\ (CalculatePunctuationAccuracy.context_match_accuracy m == 0)%Q
    /\ (CalculatePunctuationAccuracy.overall_punctuation_score m == 30)%Q
    /\ ~ (CalculatePunctuationAccuracy.context_match_accuracy m == 100)%Q
    /\ ~ (CalculatePunctuationAccuracy.overall_punctuation_score m == 100)%Q.
Proof.
  eexists. split; [vm_compute; reflexivity|].
  repeat split; vm_compute; congruence.
Qed.

(** C8 (amended).  For every text A, evaluating A against itself gives: an
    alignment with as many hits as A has tokens and no substitution,
    insertion or deletion; WER 0 and word accuracy 100; every entry of
    [mark_accuracy] at 100; and, when A has at least one punctuation context
    (a token with one of the eight context marks), context match accuracy
    100 and overall score 100, while without any punctuation context the
    context match accuracy is 0 and the overall score 30. *)
Theorem C8_self_evaluation
        (isalnum : char -> bool) (lower : str -> str) (A : str) :
  Jiwer.process_words A A
  = {| Jiwer.hits := length (Jiwer.word_tokens A); Jiwer.substitutions := 0;
       Jiwer.deletions := 0; Jiwer.insertions := 0 |}
  /\ (exists q, Jiwer.wer A A = Ok q /\ (q == 0)%Q)
  /\ (exists m,
        CalculateBenchmarks.calculate_metrics A A = Ok m
        /\ (CalculateBenchmarks.wer m == 0)%Q
        /\ (CalculateBenchmarks.word_accuracy m == 100)%Q
        /\ CalculateBenchmarks.hits m = length (Jiwer.word_tokens A)
        /\ CalculateBenchmarks.substitutions m = 0%nat
        /\ CalculateBenchmarks.deletions m = 0%nat
        /\ CalculateBenchmarks.insertions m = 0%nat)
  /\ (exists m,
        CalculatePunctuationAccuracy.calculate_punctuation_metrics
          isalnum lower A A = Ok m
        /\ (forall mark e,
              get (CalculatePunctuationAccuracy.mark_accuracy m) mark = Some e ->
              (CalculatePunctuationAccuracy.count_accuracy e == 100)%Q)
        /\ (CalculatePunctuationAccuracy.extract_punctuation_context
              isalnum lower A 2 <> [] ->
            (CalculatePunctuationAccuracy.context_match_accuracy m == 100)%Q
            /\ (CalculatePunctuationAccuracy.overall_punctuation_score m
                == 100)%Q)
        /\ (CalculatePunctuationAccuracy.extract_punctuation_context
              isalnum lower A 2 = [] ->
            (CalculatePunctuationAccuracy.context_match_accuracy m == 0)%Q
            /\ (CalculatePunctuationAccuracy.overall_punctuation_score m
                == 30)%Q)).
Proof.
  split; [apply align_self|]. split; [apply error_rate_self|]. split.
  - destruct (error_rate_self (Jiwer.word_tokens A)) as (q & Eq & Hq).
    destruct (error_rate_self (Jiwer.char_tokens A)) as (c & Ec & Hc).
    unfold CalculateBenchmarks.calculate_metrics, Jiwer.wer, Jiwer.cer,
      Jiwer.process_words.
    rewrite Eq, Ec, align_self. cbn [bind]. eexists. split; [reflexivity|].
    cbn. split; [|split; [|auto]].
    + apply round2_0. rewrite Hq. reflexivity.
    + apply round2_100. unfold CalculateBenchmarks.word_accuracy_of.
      rewrite (max_comp 0 (1 - q) 1) by (rewrite Hq; reflexivity).
      reflexivity.
  - destruct (calculate_punctuation_metrics_returns isalnum lower A A)
      as (ma & ca & rd & hd & Ema & Eca & Erd & Ehd & E).
    rewrite Erd in Ehd. inversion Ehd; subst hd; clear Ehd.
    eexists. split; [exact E|].
    cbn [CalculatePunctuationAccuracy.mark_accuracy
           CalculatePunctuationAccuracy.context_match_accuracy
           CalculatePunctuationAccuracy.overall_punctuation_score].
    split; [|split].
    + intros mark e G.
      destruct (mark_accuracy_of_returns
                  (CalculatePunctuationAccuracy.count_punctuation A)
                  (CalculatePunctuationAccuracy.count_punctuation A))
        as (ma' & Ema' & _ & Hget).
      rewrite Ema in Ema'. inversion Ema'; subst ma'; clear Ema'.
      rewrite (Hget mark e G). cbn. apply round2_100.
      apply mark_accuracy_formula_same.
    + intros Hne.
      rewrite count_matched_self in Eca by apply build_lookup_nodup.
      destruct (context_accuracy_of_returns
                  (Z.of_nat (length (CalculatePunctuationAccuracy.build_lookup
                     (CalculatePunctuationAccuracy.extract_punctuation_context
                        isalnum lower A 2))))
                  (length (CalculatePunctuationAccuracy.build_lookup
                     (CalculatePunctuationAccuracy.extract_punctuation_context
                        isalnum lower A 2))))
        as (q & Eq & _ & Hq).
      rewrite Eca in Eq. inversion Eq; subst q; clear Eq.
      assert (Hlen : length (CalculatePunctuationAccuracy.build_lookup
                     (CalculatePunctuationAccuracy.extract_punctuation_context
                        isalnum lower A 2)) <> 0%nat).
      { intros L. apply length_zero_iff_nil in L.
        now apply build_lookup_nonempty in Hne. }
      assert (Hca : (ca == 100)%Q).
      { rewrite (Hq Hlen). now apply ratio_same. }
      split.
      * now apply round2_100.
      * apply round2_100. rewrite score_same, Hca. reflexivity.
    + intros Hnil. rewrite Hnil in Eca. cbn in Eca.
      inversion Eca; subst ca; clear Eca. split.
      * reflexivity.
      * rewrite (round2_comp _ 30); [reflexivity|].
        rewrite score_same. reflexivity.
Qed.

(** The amended C8 at the text "a, b. c!": context match accuracy and
    overall score are 100. *)
Lemma C8_self_evaluation_witness :
  exists m,
    CalculatePunctuationAccuracy.calculate_punctuation_metrics
      CalculatePunctuationAccuracy.ascii_isalnum
      CalculatePunctuationAccuracy.ascii_lower
      (lit "a, b. c!") (lit "a, b. c!") = Ok m
    /\ (CalculatePunctuationAccuracy.context_match_accuracy m == 100)%Q
    /\ (CalculatePunctuationAccuracy.overall_punctuation_score m == 100)%Q.
Proof.
  destruct (C8_self_evaluation
              CalculatePunctuationAccuracy.ascii_isalnum
              CalculatePunctuationAccuracy.ascii_lower (lit "a, b. c!"))
    as (_ & _ & _ & m & E & _ & H & _).
  exists m. split; [exact E|]. apply H. vm_compute. discriminate.
Defined.

(* ================================================================== *)
(** * Further properties of the scripts *)
(* ================================================================== *)

(** ** Counting punctuation *)

Section CountingFacts.
Import CalculatePunctuationAccuracy.

Abbreviation count_step :=
  (fun (counts : dict char Z) (char : char) =>
     if existsb (eqb char) punctuation_marks_count
     then set counts char (get_default counts char 0 + 1)%Z
     else counts).

Lemma occurrences_cons (c x : char) (text : str) :
  occurrences c (x :: text)
  = ((if eqb c x then 1 else 0) + occurrences c text)%nat.
Proof. unfold occurrences. simpl. destruct (eqb c x); reflexivity. Qed.

Lemma get_default_set (d : dict char Z) (k k' : char) (v : Z) :
  get_default (set d k v) k' 0%Z
  = if eqb k' k then v else get_default d k' 0%Z.
Proof. unfold get_default. rewrite get_set. destruct (eqb k' k); reflexivity. Qed.

Lemma count_fold (text : str) (acc : dict char Z) (c : char) :
  get_default (fold_left count_step text acc) c 0%Z
  = (get_default acc c 0
     + (if is_count_mark c then Z.of_nat (occurrences c text) else 0))%Z.
Proof.
  revert acc; induction text as [|x text IH]; intros acc.
  - simpl. destruct (is_count_mark c); unfold occurrences; simpl; lia.
  - cbn [fold_left]. rewrite IH, occurrences_cons.
    destruct (eqb c x) eqn:E.
    + apply eqb_eq in E. subst x. fold (is_count_mark c).
      destruct (is_count_mark c).
      * rewrite get_default_set, eqb_refl. lia.
      * lia.
    + destruct (existsb (eqb x) punctuation_marks_count).
      * rewrite get_default_set, E. destruct (is_count_mark c); lia.
      * destruct (is_count_mark c); lia.
Qed.

Lemma count_fold_keys (text : str) (acc : dict char Z) (c : char) :
  In c (keys (fold_left count_step text acc))
  <-> In c (keys acc) \/ (is_count_mark c = true /\ In c text).
Proof.
  revert acc; induction text as [|x text IH]; intros acc.
  - simpl. tauto.
  - cbn [fold_left]. rewrite IH. cbv beta.
    destruct (existsb (eqb x) punctuation_marks_count) eqn:M.
    + rewrite in_keys_set. split.
      * intros [[->|H]|[H1 H2]].
        -- right. split; [exact M|now left].
        -- now left.
        -- right. split; [exact H1|now right].
      * intros [H|[H1 [->|H2]]].
        -- left. now right.
        -- left. now left.
        -- right. now split.
    + split.
      * intros [H|[H1 H2]].
        -- now left.
        -- right. split; [exact H1|now right].
      * intros [H|[H1 [->|H2]]].
        -- now left.
        -- unfold is_count_mark in H1. congruence.
        -- right. now split.
Qed.

Lemma count_fold_nodup (text : str) (acc : dict char Z) :
  NoDup (keys acc) -> NoDup (keys (fold_left count_step text acc)).
Proof.
  revert acc; induction text as [|x text IH]; intros acc N; [exact N|].
  cbn [fold_left]. apply IH.
  destruct (existsb (eqb x) punctuation_marks_count); [|exact N].
  now apply nodup_keys_set.
Qed.

Lemma sum_from (l : list Z) (a : Z) : fold_left Z.add l a = (a + sum l)%Z.
Proof.
  unfold sum. revert a; induction l as [|x l IH]; intros a; simpl; [lia|].
  rewrite IH, (IH x). lia.
Qed.

Lemma sum_cons (x : Z) (l : list Z) : sum (x :: l) = (x + sum l)%Z.
Proof. unfold sum at 1. simpl. apply sum_from. Qed.

Lemma sum_values_set (d : dict char Z) (k : char) (v : Z) :
  sum (values (set d k v))
  = (sum (values d) - get_default d k 0 + v)%Z.
Proof.
  unfold get_default.
  induction d as [|[k0 v0] d IH]; simpl.
  - rewrite sum_cons. unfold sum; simpl. lia.
  - destruct (eqb k k0) eqn:E; simpl.
    + fold (values d). rewrite !sum_cons. lia.
    + fold (values (set d k v)) (values d). rewrite !sum_cons, IH. lia.
Qed.

Lemma count_fold_total (text : str) (acc : dict char Z) :
  sum (values (fold_left count_step text acc))
  = (sum (values acc) + Z.of_nat (length (filter is_count_mark text)))%Z.
Proof.
  revert acc; induction text as [|x text IH]; intros acc.
  - simpl. lia.
  - cbn [fold_left filter]. rewrite IH. unfold is_count_mark at 2.
    destruct (existsb (eqb x) punctuation_marks_count).
    + rewrite sum_values_set. cbn [length]. lia.
    + lia.
Qed.
End CountingFacts.

(** X1.  [count_punctuation] counts occurrences: the count stored for a
    mark of the ten-mark list is the number of times the character occurs
    in the text, and any other character has no count. *)
Theorem count_punctuation_counts (text : str) (c : char) :
  get_default (CalculatePunctuationAccuracy.count_punctuation text) c 0%Z
  = if is_count_mark c then Z.of_nat (occurrences c text) else 0%Z.
Proof.
  unfold CalculatePunctuationAccuracy.count_punctuation.
  rewrite count_fold. reflexivity.
Qed.

(** X2.  The keys of the dictionary returned by [count_punctuation] are
    pairwise distinct and are exactly the marks of the ten-mark list that
    occur in the text: a mark that does not occur has no entry. *)
Theorem count_punctuation_keys (text : str) :
  NoDup (keys (CalculatePunctuationAccuracy.count_punctuation text))
  /\ forall c,
       In c (keys (CalculatePunctuationAccuracy.count_punctuation text))
       <-> In c CalculatePunctuationAccuracy.punctuation_marks_count
           /\ In c text.
Proof.
  split.
  - apply count_fold_nodup. constructor.
  - intros c. unfold CalculatePunctuationAccuracy.count_punctuation.
    rewrite count_fold_keys. simpl. unfold is_count_mark.
    split.
    + intros [[]|[M Hin]]. split; [|exact Hin].
      apply existsb_exists in M. destruct M as (x & Hx & E).
      apply eqb_eq in E. now subst.
    + intros [M Hin]. right. split; [|exact Hin].
      apply existsb_exists. exists c. split; [exact M|apply eqb_refl].
Qed.

(** X3.  The totals reported by [calculate_punctuation_metrics] are the
    numbers of characters of the reference and of the hypothesis that are
    marks of the ten-mark list, and the reported difference is the
    hypothesis total minus the reference total. *)
Theorem total_punctuation_counts
        (isalnum : char -> bool) (lower : str -> str)
        (reference hypothesis : str) :
  exists m,
    CalculatePunctuationAccuracy.calculate_punctuation_metrics
      isalnum lower reference hypothesis = Ok m
    /\ CalculatePunctuationAccuracy.total_punctuation_reference m
       = Z.of_nat (length (filter is_count_mark reference))
    /\ CalculatePunctuationAccuracy.total_punctuation_hypothesis m
       = Z.of_nat (length (filter is_count_mark hypothesis))
    /\ CalculatePunctuationAccuracy.total_punctuation_difference m
       = (Z.of_nat (length (filter is_count_mark hypothesis))
          - Z.of_nat (length (filter is_count_mark reference)))%Z.
Proof.
  destruct (calculate_punctuation_metrics_returns isalnum lower
              reference hypothesis) as (ma & ca & rd & hd & _ & _ & _ & _ & E).
  eexists. split; [exact E|]. cbn.
  unfold CalculatePunctuationAccuracy.count_punctuation.
  rewrite !count_fold_total. unfold sum; simpl. repeat split; lia.
Qed.

(** ** Ranges of the punctuation metrics *)

Section RangeFacts.
Import CalculatePunctuationAccuracy.
Local Open Scope Q_scope.

Lemma div_nonneg (a b : Q) : 0 <= a -> 0 < b -> 0 <= a / b.
Proof.
  intros Ha Hb. apply Qle_shift_div_l; [exact Hb|]. lra.
Qed.

Lemma div_le_1 (a b : Q) : 0 < b -> a <= b -> a / b <= 1.
Proof.
  intros Hb Hab. apply Qle_shift_div_r; [exact Hb|]. lra.
Qed.

Lemma mark_accuracy_formula_range (r h : Z) :
  (0 <= r)%Z -> 0 <= mark_accuracy_formula r h <= 100.
Proof.
  intros Hr. unfold mark_accuracy_formula.
  destruct (r =? 0)%Z eqn:E.
  - destruct (h =? 0)%Z; split; lra.
  - apply Z.eqb_neq in E. split; [apply max_ge_l|].
    apply max_le; [lra|].
    assert (D : 0 <= inject_Z (Z.abs (r - h)) / inject_Z r).
    { apply div_nonneg.
      - change 0 with (inject_Z 0). rewrite <- Zle_Qle. lia.
      - change 0 with (inject_Z 0). rewrite <- Zlt_Qlt. lia. }
    lra.
Qed.

Lemma count_matched_bounds (hyp_dict : dict str (list char))
      (l : list (str * list char)) (acc : Z) :
  let r := fold_left
      (fun matched_contexts '(context, ref_puncts) =>
         match get hyp_dict context with
         | Some hyp_puncts =>
             if eqb ref_puncts hyp_puncts
             then (matched_contexts + 1)%Z
             else matched_contexts
         | None => matched_contexts
         end)
      l acc in
  (acc <= r <= acc + Z.of_nat (length l))%Z.
Proof.
  revert acc; induction l as [|[k v] l IH]; intros acc; cbn zeta.
  - simpl. lia.
  - cbn [fold_left length].
    destruct (get hyp_dict k) as [hyp_puncts|].
    + destruct (eqb v hyp_puncts).
      * specialize (IH (acc + 1)%Z). cbn zeta in IH. lia.
      * specialize (IH acc). cbn zeta in IH. lia.
    + specialize (IH acc). cbn zeta in IH. lia.
Qed.

Lemma context_accuracy_range (ref_dict hyp_dict : dict str (list char)) (q : Q) :
  context_accuracy_of (count_matched ref_dict hyp_dict) (length ref_dict) = Ok q ->
  0 <= q <= 100.
Proof.
  intros E.
  destruct (context_accuracy_of_returns (count_matched ref_dict hyp_dict)
              (length ref_dict)) as (q' & E' & H0 & H1).
  rewrite E in E'. inversion E'; subst q'; clear E'.
  destruct (length ref_dict) as [|n] eqn:L.
  - rewrite H0 by reflexivity. split; lra.
  - rewrite H1 by discriminate.
    pose proof (count_matched_bounds hyp_dict ref_dict 0) as B.
    cbn zeta in B. fold (count_matched ref_dict hyp_dict) in B.
    rewrite L in B.
    assert (P : 0 < inject_Z (Z.of_nat (S n))).
    { change 0 with (inject_Z 0). rewrite <- Zlt_Qlt. lia. }
    assert (D0 : 0 <= inject_Z (count_matched ref_dict hyp_dict)
                      / inject_Z (Z.of_nat (S n))).
    { apply div_nonneg; [|exact P].
      change 0 with (inject_Z 0). rewrite <- Zle_Qle. lia. }
    assert (D1 : inject_Z (count_matched ref_dict hyp_dict)
                 / inject_Z (Z.of_nat (S n)) <= 1).
    { apply div_le_1; [exact P|]. rewrite <- Zle_Qle. lia. }
    split; lra.
Qed.

Lemma score_le_100 (context_accuracy ref_density hyp_density : Q) :
  context_accuracy <= 100 ->
  context_accuracy * (7 # 10)
  + (100 - Qabs (ref_density - hyp_density)
           / Py.max ref_density (1 # 100) * 100) * (3 # 10)
  <= 100.
Proof.
  intros Hc.
  assert (D : 0 <= Qabs (ref_density - hyp_density)
                   / Py.max ref_density (1 # 100)).
  { apply div_nonneg; [apply Qabs_nonneg|].
    pose proof (max_ge_r ref_density (1 # 100)). lra. }
  lra.
Qed.
End RangeFacts.

(** X4.  Every entry of [mark_accuracy] holds the numbers of occurrences of
    its mark in the reference and in the hypothesis, and a count accuracy
    between 0 and 100. *)
Theorem mark_accuracy_entries_in_range
        (isalnum : char -> bool) (lower : str -> str)
        (reference hypothesis : str)
        (m : CalculatePunctuationAccuracy.PunctuationMetrics)
        (mark : char) (e : CalculatePunctuationAccuracy.MarkAccuracy) :
  CalculatePunctuationAccuracy.calculate_punctuation_metrics
    isalnum lower reference hypothesis = Ok m ->
  get (CalculatePunctuationAccuracy.mark_accuracy m) mark = Some e ->
  is_count_mark mark = true
  /\ CalculatePunctuationAccuracy.reference_count e
     = Z.of_nat (occurrences mark reference)
  /\ CalculatePunctuationAccuracy.hypothesis_count e
     = Z.of_nat (occurrences mark hypothesis)
  /\ (0 <= CalculatePunctuationAccuracy.count_accuracy e <= 100)%Q.
Proof.
  intros E G.
  destruct (calculate_punctuation_metrics_returns isalnum lower
              reference hypothesis) as (ma & ca & rd & hd & Ema & _ & _ & _ & E').
  rewrite E' in E. inversion E; subst m; clear E.
  cbn [CalculatePunctuationAccuracy.mark_accuracy] in G.
  destruct (mark_accuracy_of_returns
              (CalculatePunctuationAccuracy.count_punctuation reference)
              (CalculatePunctuationAccuracy.count_punctuation hypothesis))
    as (ma' & Ema' & Hkeys & Hget).
  rewrite Ema in Ema'. inversion Ema'; subst ma'; clear Ema'.
  assert (M : is_count_mark mark = true).
  { pose proof (get_some_in _ _ _ G) as K.
    apply Hkeys, in_app_or in K.
    unfold CalculatePunctuationAccuracy.count_punctuation in K.
    rewrite !count_fold_keys in K. simpl in K. tauto. }
  split; [exact M|].
  rewrite (Hget mark e G). unfold entry_of.
  cbn [CalculatePunctuationAccuracy.reference_count
         CalculatePunctuationAccuracy.hypothesis_count
         CalculatePunctuationAccuracy.count_accuracy].
  unfold CalculatePunctuationAccuracy.count_punctuation.
  rewrite !count_fold, M. unfold get_default. cbn [get].
  split; [reflexivity|]. split; [reflexivity|].
  split.
  - apply round2_nonneg, mark_accuracy_formula_range. lia.
  - apply round2_le_100, mark_accuracy_formula_range. lia.
Qed.

(** X4 at reference "a, b, c," and hypothesis "a, b, c": the comma. *)
Lemma mark_accuracy_entries_in_range_witness :
  exists m e,
    CalculatePunctuationAccuracy.calculate_punctuation_metrics
      CalculatePunctuationAccuracy.ascii_isalnum
      CalculatePunctuationAccuracy.ascii_lower
      (lit "a, b, c,") (lit "a, b, c") = Ok m
    /\ get (CalculatePunctuationAccuracy.mark_accuracy m)
           CalculatePunctuationAccuracy.comma = Some e
    /\ is_count_mark CalculatePunctuationAccuracy.comma = true
    /\ CalculatePunctuationAccuracy.reference_count e
       = Z.of_nat (occurrences CalculatePunctuationAccuracy.comma
                               (lit "a, b, c,"))
    /\ CalculatePunctuationAccuracy.hypothesis_count e
       = Z.of_nat (occurrences CalculatePunctuationAccuracy.comma
                               (lit "a, b, c"))
    /\ (0 <= CalculatePunctuationAccuracy.count_accuracy e <= 100)%Q.
Proof.
  eexists. eexists. split; [vm_compute; reflexivity|].
  split; [vm_compute; reflexivity|].
  eapply (mark_accuracy_entries_in_range
            CalculatePunctuationAccuracy.ascii_isalnum
            CalculatePunctuationAccuracy.ascii_lower
            (lit "a, b, c,") (lit "a, b, c")).
  - vm_compute; reflexivity.
  - vm_compute; reflexivity.
Defined.

(** X5.  For every pair of texts the reported context match accuracy lies
    between 0 and 100 and the reported overall punctuation score is at most
    100. *)
Theorem punctuation_scores_bounded
        (isalnum : char -> bool) (lower : str -> str)
        (reference hypothesis : str) :
  exists m,
    CalculatePunctuationAccuracy.calculate_punctuation_metrics
      isalnum lower reference hypothesis = Ok m
    /\ (0 <= CalculatePunctuationAccuracy.context_match_accuracy m <= 100)%Q
    /\ (CalculatePunctuationAccuracy.overall_punctuation_score m <= 100)%Q.
Proof.
  destruct (calculate_punctuation_metrics_returns isalnum lower
              reference hypothesis) as (ma & ca & rd & hd & _ & Eca & _ & _ & E).
  eexists. split; [exact E|]. cbn.
  apply context_accuracy_range in Eca. destruct Eca as [L U].
  split; [split|].
  - now apply round2_nonneg.
  - now apply round2_le_100.
  - apply round2_le_100. now apply score_le_100.
Qed.

(** ** Size of the extraction and of the lookup dictionaries *)

Section SizeFacts.
Import CalculatePunctuationAccuracy.

Lemma length_enumerate_from {A} (l : list A) (n : nat) :
  length (enumerate_from n l) = length l.
Proof. revert n; induction l as [|a l IH]; intros n; simpl; auto. Qed.

Lemma length_flat_map_le {A B} (f : A -> list B) (k : nat) (l : list A) :
  (forall a, length (f a) <= k) -> length (flat_map f l) <= k * length l.
Proof.
  intros Hf. induction l as [|a l IH]; simpl; [lia|].
  rewrite length_app. specialize (Hf a). lia.
Qed.

Lemma length_pairs_of_word (isalnum : char -> bool) (lower : str -> str)
      (words : list str) (cw i : nat) (word : str) :
  length (pairs_of_word isalnum lower words cw i word) <= 8.
Proof.
  rewrite pairs_of_word_map, length_map.
  etransitivity; [apply filter_length_le|]. reflexivity.
Qed.

(** The number of marks held by a lookup dictionary. *)
Lemma total_marks_set (d : dict str (list char)) (k : str) (v : list char) :
  length (concat (values (set d k v))) + length (get_default d k [])
  = length (concat (values d)) + length v.
Proof.
  unfold get_default, values.
  induction d as [|[k0 v0] d IH]; cbn [set get map concat snd].
  - rewrite length_app. cbn [length]. lia.
  - destruct (eqb k k0) eqn:E; cbn [map concat snd].
    + rewrite !length_app. lia.
    + rewrite !length_app. lia.
Qed.

Lemma total_marks_step (d : dict str (list char)) (context : str) (punct : char) :
  length (concat (values
    (let d' := match get d context with
               | None => set d context []
               | Some _ => d
               end in
     set d' context (get_default d' context [] ++ [punct]))))
  = S (length (concat (values d))).
Proof.
  cbv zeta.
  pose proof (total_marks_set
                (match get d context with
                 | None => set d context []
                 | Some _ => d
                 end) context
                (get_default
                   (match get d context with
                    | None => set d context []
                    | Some _ => d
                    end) context [] ++ [punct])) as T.
  rewrite length_app in T. cbn [length] in T.
  destruct (get d context) eqn:G.
  - lia.
  - pose proof (total_marks_set d context []) as T0.
    unfold get_default in T0 at 1. rewrite G in T0. cbn [length] in T0. lia.
Qed.

Lemma total_marks_fold (pairs : list (str * char)) (d : dict str (list char)) :
  length (concat (values
    (fold_left
       (fun d '(context, punct) =>
          let d' := match get d context with
                    | None => set d context []
                    | Some _ => d
                    end in
          set d' context (get_default d' context [] ++ [punct]))
       pairs d)))
  = length (concat (values d)) + length pairs.
Proof.
  revert d; induction pairs as [|[context punct] pairs IH]; intros d.
  - simpl. lia.
  - cbn [fold_left length]. rewrite IH, total_marks_step. lia.
Qed.
End SizeFacts.

(** X6.  Context extraction emits at most eight pairs per word of the
    text; a text without words yields no pair. *)
Theorem extract_at_most_eight_per_word
        (isalnum : char -> bool) (lower : str -> str) (text : str) (cw : nat) :
  length (CalculatePunctuationAccuracy.extract_punctuation_context
            isalnum lower text cw)
  <= 8 * length (split text).
Proof.
  unfold CalculatePunctuationAccuracy.extract_punctuation_context.
  unfold enumerate. rewrite <- (length_enumerate_from (split text) 0).
  apply length_flat_map_le. intros [i word]. apply length_pairs_of_word.
Qed.

(** X7.  The lookup dictionary built from a list of (context, mark) pairs
    has pairwise distinct keys, its keys are the contexts of the pairs, and
    its lists hold as many marks in all as there are pairs: no pair is lost
    or counted twice. *)
Theorem build_lookup_keeps_every_pair (pairs : list (str * char)) :
  NoDup (keys (CalculatePunctuationAccuracy.build_lookup pairs))
  /\ (forall context,
        In context (keys (CalculatePunctuationAccuracy.build_lookup pairs))
        <-> exists punct, In (context, punct) pairs)
  /\ length (concat (values (CalculatePunctuationAccuracy.build_lookup pairs)))
     = length pairs.
Proof.
  split; [apply build_lookup_nodup|]. split.
  - intros context. split.
    + intros Hin. apply in_keys_get in Hin. destruct Hin as [v G].
      rewrite get_build_lookup in G.
      destruct (marks_at context pairs) as [|p l] eqn:M; [discriminate|].
      assert (Hp : In p (marks_at context pairs)) by (rewrite M; now left).
      unfold marks_at in Hp. apply in_map_iff in Hp.
      destruct Hp as ([c p'] & Es & Hf). simpl in Es. subst p'.
      apply filter_In in Hf. destruct Hf as [Hin E]. simpl in E.
      apply eqb_eq in E. subst c. now exists p.
    + intros [punct Hin].
      assert (Hp : In punct (marks_at context pairs)).
      { unfold marks_at. apply in_map_iff. exists (context, punct).
        split; [reflexivity|]. apply filter_In. split; [exact Hin|].
        simpl. apply eqb_refl. }
      destruct (get (CalculatePunctuationAccuracy.build_lookup pairs) context)
        as [v|] eqn:G.
      * eapply get_some_in; eauto.
      * rewrite get_build_lookup in G.
        destruct (marks_at context pairs); [contradiction|discriminate].
  - unfold CalculatePunctuationAccuracy.build_lookup.
    rewrite total_marks_fold. reflexivity.
Qed.

(** ** The loops over the runs *)

Section BenchmarkLoopFacts.
Import CalculateBenchmarks.

Lemma main_loop_cons (reference_text : str) (run : Run) (runs : list Run) :
  main_loop reference_text (run :: runs)
  = main_step reference_text [] run ++ main_loop reference_text runs.
Proof.
  change (run :: runs) with ([run] ++ runs). rewrite main_loop_app.
  reflexivity.
Qed.
End BenchmarkLoopFacts.

(** X8.  The results collected by [main] of [calculate_benchmarks.py] are,
    in the order of the configuration, one result for each run that is
    completed, has its directory and is evaluated without an exception;
    every other run contributes nothing, and each result carries the
    identifier of its run and the metrics of the stripped transcript. *)
Theorem benchmark_results_of_good_runs
        (reference_text : str) (runs : list CalculateBenchmarks.Run) :
  CalculateBenchmarks.main_loop reference_text runs
  = flat_map
      (fun run =>
         if CalculateBenchmarks.r_completed run
            && CalculateBenchmarks.r_dir_exists run
         then match CalculateBenchmarks.evaluate_run reference_text run with
              | Ok result => [result]
              | Raise _ => []
              end
         else [])
      runs
  /\ length (CalculateBenchmarks.main_loop reference_text runs) <= length runs
  /\ forall result,
       In result (CalculateBenchmarks.main_loop reference_text runs) ->
       exists run content,
         In run runs
         /\ CalculateBenchmarks.r_completed run = true
         /\ CalculateBenchmarks.r_dir_exists run = true
         /\ CalculateBenchmarks.run_id result
            = CalculateBenchmarks.r_run_id run
         /\ CalculateBenchmarks.find_transcript_file run = Ok content
         /\ CalculateBenchmarks.calculate_metrics reference_text (strip content)
            = Ok (CalculateBenchmarks.metrics result).
Proof.
  assert (E : CalculateBenchmarks.main_loop reference_text runs
              = flat_map
                  (fun run =>
                     if CalculateBenchmarks.r_completed run
                        && CalculateBenchmarks.r_dir_exists run
                     then match CalculateBenchmarks.evaluate_run
                                  reference_text run with
                          | Ok result => [result]
                          | Raise _ => []
                          end
                     else [])
                  runs).
  { induction runs as [|run runs IH]; [reflexivity|].
    rewrite main_loop_cons, IH. cbn [flat_map]. f_equal.
    unfold CalculateBenchmarks.main_step.
    destruct (CalculateBenchmarks.r_completed run); [|reflexivity].
    destruct (CalculateBenchmarks.r_dir_exists run); [|reflexivity].
    cbn. destruct (CalculateBenchmarks.evaluate_run reference_text run);
      reflexivity. }
  split; [exact E|]. split.
  - rewrite E. rewrite <- (Nat.mul_1_l (length runs)).
    apply length_flat_map_le. intros run.
    destruct (_ && _); [|simpl; lia].
    destruct (CalculateBenchmarks.evaluate_run reference_text run);
      simpl; lia.
  - intros result Hin. rewrite E in Hin. apply in_flat_map in Hin.
    destruct Hin as (run & Hrun & Hres).
    destruct (CalculateBenchmarks.r_completed run) eqn:C; [|contradiction].
    destruct (CalculateBenchmarks.r_dir_exists run) eqn:D; [|contradiction].
    cbn in Hres.
    destruct (CalculateBenchmarks.evaluate_run reference_text run)
      as [r|] eqn:Er; [|contradiction].
    destruct Hres as [->|[]].
    unfold CalculateBenchmarks.evaluate_run in Er.
    destruct (CalculateBenchmarks.find_transcript_file run)
      as [content|] eqn:F; [|discriminate].
    cbn in Er. unfold CalculateBenchmarks.load_text in Er.
    destruct (CalculateBenchmarks.calculate_metrics reference_text
                (strip content)) as [mt|] eqn:M; [|discriminate].
    cbn in Er. inversion Er; subst result; clear Er.
    exists run, content. cbn. repeat split; auto.
Qed.

(** X8 at a configuration of one completed run with transcript
    "the quick fox" and one run that is not completed. *)
Lemma benchmark_results_of_good_runs_witness :
  let run completed :=
    {| CalculateBenchmarks.r_run_id := lit "r";
       CalculateBenchmarks.r_run_type := [];
       CalculateBenchmarks.r_provider := [];
       CalculateBenchmarks.r_model := [];
       CalculateBenchmarks.r_engine := [];
       CalculateBenchmarks.r_completed := completed;
       CalculateBenchmarks.r_dir_exists := true;
       CalculateBenchmarks.r_transcript_txt := Some (lit "the quick fox ");
       CalculateBenchmarks.r_other_txt := [] |} in
  exists result,
    CalculateBenchmarks.main_loop (lit "the quick brown fox")
      [run true; run false] = [result]
    /\ exists r content,
         In r [run true; run false]
         /\ CalculateBenchmarks.r_completed r = true
         /\ CalculateBenchmarks.r_dir_exists r = true
         /\ CalculateBenchmarks.run_id result = CalculateBenchmarks.r_run_id r
         /\ CalculateBenchmarks.find_transcript_file r = Ok content
         /\ CalculateBenchmarks.calculate_metrics
              (lit "the quick brown fox") (strip content)
            = Ok (CalculateBenchmarks.metrics result).
Proof.
  intros run. eexists. split; [vm_compute; reflexivity|].
  apply (proj2 (proj2 (benchmark_results_of_good_runs
                         (lit "the quick brown fox") [run true; run false]))).
  vm_compute. left. reflexivity.
Defined.

Section PunctuationLoopFacts.
Import CalculatePunctuationAccuracy.
Variable isalnum : char -> bool.
Variable lower : str -> str.

Abbreviation p_step := (main_step isalnum lower).
Abbreviation p_loop := (main_loop isalnum lower).
Abbreviation p_run := (evaluate_run isalnum lower).

Lemma punctuation_step_acc (reference_text : str) (acc : list RunResult)
      (run : Run) :
  p_step reference_text acc run = acc ++ p_step reference_text [] run.
Proof.
  unfold main_step.
  destruct (negb _); [now rewrite app_nil_r|].
  destruct (negb _); [now rewrite app_nil_r|].
  destruct (p_run _ _); [reflexivity | now rewrite app_nil_r].
Qed.

Lemma punctuation_fold_acc (reference_text : str) (runs : list Run)
      (acc : list RunResult) :
  fold_left (p_step reference_text) runs acc
  = acc ++ fold_left (p_step reference_text) runs [].
Proof.
  revert acc; induction runs as [|run runs IH]; intros acc; simpl.
  - now rewrite app_nil_r.
  - rewrite IH, (IH (p_step reference_text [] run)).
    rewrite punctuation_step_acc, app_assoc. reflexivity.
Qed.

Lemma punctuation_loop_cons (reference_text : str) (run : Run)
      (runs : list Run) :
  p_loop reference_text (run :: runs)
  = p_step reference_text [] run ++ p_loop reference_text runs.
Proof. unfold main_loop. simpl. apply punctuation_fold_acc. Qed.

(** What the [try] block gives: a result exactly when the transcript can
    be read and both keys are there. *)
Lemma punctuation_run_cases (reference_text : str) (run : Run) :
  match transcript_of run, r_provider run, r_model run with
  | Some content, Some p, Some mo =>
      exists m,
        find_transcript_file run = Ok (Ok content)
        /\ calculate_punctuation_metrics isalnum lower reference_text
             (strip content) = Ok m
        /\ p_run reference_text run
           = Ok {| run_id := r_run_id run; provider := p;
                   model := mo; metrics := m |}
  | _, _, _ => exists e, p_run reference_text run = Raise e
  end.
Proof.
  unfold transcript_of, evaluate_run.
  destruct (find_transcript_file run) as [[content|e]|e] eqn:F.
  - destruct (calculate_punctuation_metrics_returns isalnum lower
                reference_text (strip content))
      as (ma & ca & rd & hd & _ & _ & _ & _ & E).
    cbn [Py.bind load_text]. rewrite E. cbn [Py.bind].
    destruct (r_provider run) as [p|]; [|eexists; reflexivity].
    destruct (r_model run) as [mo|]; [|eexists; reflexivity].
    eexists. split; [reflexivity|]. split; reflexivity.
  - exists e. reflexivity.
  - exists e. reflexivity.
Qed.
End PunctuationLoopFacts.

(** X9.  [main] of [calculate_punctuation_accuracy.py] collects, in the
    order of the configuration, one result for every run that is completed,
    whose directory exists, whose transcript file ([transcript.txt], else
    the first [*.txt]) exists and can be read, and whose entry has the keys
    ['provider'] and ['model']; every other run is skipped.  The metrics
    themselves never raise.  Each result holds the provider and model of
    its run and the metrics of the reference against the stripped
    transcript. *)
Theorem punctuation_results_of_runs_with_transcript
        (isalnum : char -> bool) (lower : str -> str)
        (reference_text : str)
        (runs : list CalculatePunctuationAccuracy.Run) :
  map CalculatePunctuationAccuracy.run_id
      (CalculatePunctuationAccuracy.main_loop isalnum lower reference_text runs)
  = map CalculatePunctuationAccuracy.r_run_id (filter evaluable runs)
  /\ forall result,
       In result
          (CalculatePunctuationAccuracy.main_loop
             isalnum lower reference_text runs) ->
       exists run content,
         In run runs
         /\ CalculatePunctuationAccuracy.run_id result
            = CalculatePunctuationAccuracy.r_run_id run
         /\ CalculatePunctuationAccuracy.find_transcript_file run
            = Ok (Ok content)
         /\ CalculatePunctuationAccuracy.r_provider run
            = Some (CalculatePunctuationAccuracy.provider result)
         /\ CalculatePunctuationAccuracy.r_model run
            = Some (CalculatePunctuationAccuracy.model result)
         /\ CalculatePunctuationAccuracy.calculate_punctuation_metrics
              isalnum lower reference_text (strip content)
            = Ok (CalculatePunctuationAccuracy.metrics result).
Proof.
  induction runs as [|run runs [IH1 IH2]].
  - split; [reflexivity|]. intros result [].
  - assert (Skip : forall rest,
             rest = CalculatePunctuationAccuracy.main_loop
                      isalnum lower reference_text runs ->
             forall result, In result rest ->
             exists run0 content,
               In run0 (run :: runs)
               /\ CalculatePunctuationAccuracy.run_id result
                  = CalculatePunctuationAccuracy.r_run_id run0
               /\ CalculatePunctuationAccuracy.find_transcript_file run0
                  = Ok (Ok content)
               /\ CalculatePunctuationAccuracy.r_provider run0
                  = Some (CalculatePunctuationAccuracy.provider result)
               /\ CalculatePunctuationAccuracy.r_model run0
                  = Some (CalculatePunctuationAccuracy.model result)
               /\ CalculatePunctuationAccuracy.calculate_punctuation_metrics
                    isalnum lower reference_text (strip content)
                  = Ok (CalculatePunctuationAccuracy.metrics result)).
    { intros rest -> result Hin.
      destruct (IH2 result Hin) as (r & c & H & R). exists r, c.
      split; [now right|exact R]. }
    rewrite punctuation_loop_cons.
    unfold CalculatePunctuationAccuracy.main_step at 1 2.
    cbn [filter]. unfold evaluable at 1.
    destruct (CalculatePunctuationAccuracy.r_completed run) eqn:C;
      cbn [negb andb]; [|split; [exact IH1|now apply Skip]].
    destruct (CalculatePunctuationAccuracy.r_dir_exists run) eqn:D;
      cbn [negb andb]; [|split; [exact IH1|now apply Skip]].
    pose proof (punctuation_run_cases isalnum lower reference_text run) as K.
    destruct (transcript_of run) as [content|].
    2:{ destruct K as [e ->]. cbn [app]. split; [exact IH1|now apply Skip]. }
    destruct (CalculatePunctuationAccuracy.r_provider run) as [p|] eqn:P.
    2:{ destruct K as [e ->]. cbn [app]. split; [exact IH1|now apply Skip]. }
    destruct (CalculatePunctuationAccuracy.r_model run) as [mo|] eqn:M.
    2:{ destruct K as [e ->]. cbn [app]. split; [exact IH1|now apply Skip]. }
    destruct K as (m & F & E & ->). cbn [app map]. split.
    + cbn. f_equal. exact IH1.
    + intros result [<-|Hin]; [|now apply (Skip _ eq_refl)].
      exists run, content. cbn. rewrite P, M. repeat split; auto.
Qed.

(** X9 at a configuration of four completed runs: one with the transcript
    "a, b.", one without any text file, one whose transcript cannot be
    decoded, and one whose entry has no ['model']. *)
Lemma punctuation_results_of_runs_with_transcript_witness :
  let run id transcript model :=
    {| CalculatePunctuationAccuracy.r_run_id := lit id;
       CalculatePunctuationAccuracy.r_provider := Some (lit "p");
       CalculatePunctuationAccuracy.r_model := model;
       CalculatePunctuationAccuracy.r_completed := true;
       CalculatePunctuationAccuracy.r_dir_exists := true;
       CalculatePunctuationAccuracy.r_transcript_txt := Ok transcript;
       CalculatePunctuationAccuracy.r_other_txt := Ok [] |} in
  let runs :=
    [run "r1"%string (Some (Ok (lit "a, b."))) (Some (lit "m"));
     run "r2"%string None (Some (lit "m"));
     run "r3"%string (Some (Raise UnicodeDecodeError)) (Some (lit "m"));
     run "r4"%string (Some (Ok (lit "a, b."))) None] in
  exists result,
    CalculatePunctuationAccuracy.main_loop
      CalculatePunctuationAccuracy.ascii_isalnum
      CalculatePunctuationAccuracy.ascii_lower (lit "a, b.") runs = [result]
    /\ exists r content,
         In r runs
         /\ CalculatePunctuationAccuracy.run_id result
            = CalculatePunctuationAccuracy.r_run_id r
         /\ CalculatePunctuationAccuracy.find_transcript_file r
            = Ok (Ok content)
         /\ CalculatePunctuationAccuracy.r_provider r
            = Some (CalculatePunctuationAccuracy.provider result)
         /\ CalculatePunctuationAccuracy.r_model r
            = Some (CalculatePunctuationAccuracy.model result)
         /\ CalculatePunctuationAccuracy.calculate_punctuation_metrics
              CalculatePunctuationAccuracy.ascii_isalnum
              CalculatePunctuationAccuracy.ascii_lower
              (lit "a, b.") (strip content)
            = Ok (CalculatePunctuationAccuracy.metrics result).
Proof.
  intros run runs. eexists. split; [vm_compute; reflexivity|].
  apply (proj2 (punctuation_results_of_runs_with_transcript
                  CalculatePunctuationAccuracy.ascii_isalnum
                  CalculatePunctuationAccuracy.ascii_lower (lit "a, b.")
                  runs)).
  vm_compute. left. reflexivity.
Defined.

Lemma for_each_app {A S : Type} (body : S -> A -> result S)
      (l1 l2 : list A) (s : S) :
  for_each body (l1 ++ l2) s = Py.bind (for_each body l1 s) (for_each body l2).
Proof.
  revert s; induction l1 as [|a l1 IH]; intros s; simpl; [reflexivity|].
  destruct (body s a); simpl; [apply IH|reflexivity].
Qed.

(** X10.  [evaluate_all_runs] of [evaluate_transcripts.py] has no handler
    around the metric computation: when the runs before a completed run
    with a transcript are evaluated and [calculate_metrics] raises for that
    run, the whole evaluation raises the same exception, whatever runs
    follow, and no result is returned. *)
Theorem evaluate_all_runs_aborts
        (werpy_wer_of : str -> str -> result (option Q))
        (ground_truth : str)
        (before after : list EvaluateTranscripts.Run)
        (run : EvaluateTranscripts.Run)
        (results : list EvaluateTranscripts.RunResult)
        (transcript : str) (e : exn) :
  EvaluateTranscripts.evaluate_loop werpy_wer_of ground_truth before
    = Ok results ->
  EvaluateTranscripts.r_completed run = true ->
  EvaluateTranscripts.load_transcript run = Some transcript ->
  EvaluateTranscripts.calculate_metrics werpy_wer_of ground_truth transcript
    = Raise e ->
  EvaluateTranscripts.evaluate_loop werpy_wer_of ground_truth
    (before ++ run :: after) = Raise e.
Proof.
  intros Hb Hc Ht Hm. unfold EvaluateTranscripts.evaluate_loop in *.
  rewrite for_each_app, Hb. cbn [Py.bind for_each].
  unfold EvaluateTranscripts.evaluate_step at 1.
  rewrite Hc, Ht, Hm. reflexivity.
Qed.

(** X10 at an empty ground truth: the run with transcript "hello" raises
    and the batch of three runs raises. *)
Lemma evaluate_all_runs_aborts_witness :
  let run id transcript :=
    {| EvaluateTranscripts.r_run_id := lit id;
       EvaluateTranscripts.r_run_type := [];
       EvaluateTranscripts.r_provider := [];
       EvaluateTranscripts.r_model := [];
       EvaluateTranscripts.r_engine := None;
       EvaluateTranscripts.r_completed := true;
       EvaluateTranscripts.r_transcript_txt := transcript;
       EvaluateTranscripts.r_processing_time := None |} in
  EvaluateTranscripts.evaluate_loop (fun _ _ => Ok None) (lit "")
    ([run "r1"%string None] ++ run "r2"%string (Some (lit "hello"))
       :: [run "r3"%string (Some (lit ""))])
  = Raise EmptyReferenceError.
Proof.
  intros run.
  apply (evaluate_all_runs_aborts (fun _ _ => Ok None) (lit "")
           [run "r1"%string None] [run "r3"%string (Some (lit ""))]
           (run "r2"%string (Some (lit "hello"))) [] (lit "hello")).
  - vm_compute; reflexivity.
  - reflexivity.
  - vm_compute; reflexivity.
  - vm_compute; reflexivity.
Defined.

(** ** The summary order of the evaluation report *)

Section AscendingSort.
Context {A : Type}.
Variable key : A -> Q.

Lemma insert_sorted_perm (x : A) (l : list A) :
  Permutation (x :: l) (insert_sorted key x l).
Proof.
  induction l as [|y l IH]; simpl; [reflexivity|].
  destruct (Qle_bool (key x) (key y)); [reflexivity|].
  rewrite perm_swap. now apply perm_skip.
Qed.

Lemma sorted_perm (l : list A) : Permutation l (sorted key l).
Proof.
  induction l as [|x l IH]; simpl; [constructor|].
  rewrite <- insert_sorted_perm. now apply perm_skip.
Qed.

Lemma insert_sorted_ascending (x : A) (l : list A) :
  StronglySorted (ascending key) l ->
  StronglySorted (ascending key) (insert_sorted key x l).
Proof.
  induction l as [|y l IH]; intros S; simpl.
  - constructor; constructor.
  - inversion S as [|? ? S' F]; subst.
    destruct (Qle_bool (key x) (key y)) eqn:E.
    + apply Qle_bool_iff in E. constructor; [exact S|].
      constructor; [exact E|].
      eapply Forall_impl; [|exact F].
      intros z Hz. unfold ascending in *. lra.
    + constructor; [now apply IH|].
      assert (L : (key y < key x)%Q).
      { destruct (Qlt_le_dec (key y) (key x)) as [L|L]; [exact L|].
        apply Qle_bool_iff in L. congruence. }
      eapply Permutation_Forall; [apply insert_sorted_perm|].
      constructor; [|exact F]. unfold ascending. lra.
Qed.

Lemma sorted_ascending (l : list A) :
  StronglySorted (ascending key) (sorted key l).
Proof.
  induction l as [|x l IH]; simpl; [constructor|].
  now apply insert_sorted_ascending.
Qed.

Lemma insert_sorted_stable (k : Q) (x : A) (l : list A) :
  with_key key k (insert_sorted key x l) = with_key key k (x :: l).
Proof.
  induction l as [|y l IH]; [reflexivity|].
  simpl insert_sorted.
  destruct (Qle_bool (key x) (key y)) eqn:E; [reflexivity|].
  unfold with_key in *. simpl in *. rewrite IH.
  destruct (Qeq_bool (key y) k) eqn:Ey; [|reflexivity].
  destruct (Qeq_bool (key x) k) eqn:Ex; [|reflexivity].
  apply Qeq_bool_iff in Ex, Ey.
  assert (L : Qle_bool (key x) (key y) = true)
    by (apply Qle_bool_iff; rewrite Ex, Ey; apply Qle_refl).
  congruence.
Qed.

Lemma sorted_stable (k : Q) (l : list A) :
  with_key key k (sorted key l) = with_key key k l.
Proof.
  induction l as [|x l IH]; [reflexivity|].
  simpl sorted. rewrite insert_sorted_stable.
  unfold with_key in *. simpl. rewrite IH. reflexivity.
Qed.
End AscendingSort.

(** X11.  The summary table of [generate_summary_report] lists the same
    results as it was given, in ascending order of WER (best first), and
    results with equal WER keep their input order. *)
Theorem summary_order_ascending_stable
        (results : list EvaluateTranscripts.RunResult) :
  let key x := EvaluateTranscripts.wer (EvaluateTranscripts.metrics x) in
  Permutation results (EvaluateTranscripts.summary_order results)
  /\ StronglySorted (ascending key) (EvaluateTranscripts.summary_order results)
  /\ forall k, with_key key k (EvaluateTranscripts.summary_order results)
               = with_key key k results.
Proof.
  intros key. unfold EvaluateTranscripts.summary_order.
  split; [apply sorted_perm|].
  split; [apply sorted_ascending|]. intros k. apply sorted_stable.
Qed.

(** ** White space, words and joins *)

Section WordFacts.

(** No character of the string is white space. *)
Abbreviation solid := (Forall (fun c : char => isspace c = false)).

Lemma lstrip_app_last (l : str) (c : char) :
  lstrip (l ++ [c])
  = match lstrip l with
    | [] => if isspace c then [] else [c]
    | r => r ++ [c]
    end.
Proof.
  induction l as [|x l IH]; simpl.
  - destruct (isspace c); reflexivity.
  - destruct (isspace x); [exact IH|reflexivity].
Qed.

Lemma rstrip_cons_solid (c : char) (t : str) :
  isspace c = false -> rstrip (c :: t) = c :: rstrip t.
Proof.
  intros Hc. unfold rstrip. cbn [rev]. rewrite lstrip_app_last, Hc.
  destruct (lstrip (rev t)) as [|x r]; [reflexivity|].
  now rewrite rev_app_distr.
Qed.

Lemma rstrip_cons_space (c : char) (t : str) :
  isspace c = true ->
  rstrip (c :: t) = match rstrip t with [] => [] | r => c :: r end.
Proof.
  intros Hc. unfold rstrip. cbn [rev]. rewrite lstrip_app_last, Hc.
  destruct (lstrip (rev t)) as [|x r]; [reflexivity|].
  rewrite rev_app_distr. cbn [rev app].
  destruct (rev r ++ [x]) eqn:E; [|reflexivity].
  destruct (rev r); discriminate.
Qed.

Lemma rstrip_app_solid (w t : str) :
  solid w -> rstrip (w ++ t) = w ++ rstrip t.
Proof.
  induction 1 as [|c w Hc Hw IH]; [reflexivity|].
  cbn [app]. now rewrite rstrip_cons_solid, IH.
Qed.

Lemma rstrip_nil : rstrip [] = [].
Proof. reflexivity. Qed.

Lemma solid_rev (w : str) : solid w -> solid (rev w).
Proof. apply Forall_rev. Qed.

Lemma split_from_solid (text cur : str) :
  solid cur -> Forall solid (split_from cur text).
Proof.
  revert cur; induction text as [|c text IH]; intros cur Hcur; simpl.
  - destruct cur; constructor; [now apply solid_rev|constructor].
  - destruct (isspace c) eqn:Ec.
    + destruct cur as [|x cur]; [now apply IH|].
      constructor; [now apply solid_rev|]. apply IH. constructor.
    + apply IH. now constructor.
Qed.

Lemma join_nil_iff (words : list str) :
  Forall (fun w => w <> []) words -> (join words = [] <-> words = []).
Proof.
  intros F. split; [|intros ->; reflexivity].
  destruct words as [|w words]; [reflexivity|]. intros E. exfalso.
  eapply join_nonempty; [|exact F|exact E]. discriminate.
Qed.

Lemma join_cons (w : str) (words : list str) :
  words <> [] -> join (w :: words) = w ++ space :: join words.
Proof. destruct words; [congruence|reflexivity]. Qed.

Lemma isspace_space : isspace space = true.
Proof. reflexivity. Qed.

Lemma lstrip_collapse_true (text : str) :
  lstrip (SrtToText.collapse_from true text)
  = SrtToText.collapse_from true text.
Proof.
  induction text as [|c text IH]; [reflexivity|]. simpl.
  destruct (isspace c) eqn:Ec; [exact IH|]. simpl. now rewrite Ec.
Qed.

Lemma lstrip_collapse_false (text : str) :
  lstrip (SrtToText.collapse_from false text)
  = SrtToText.collapse_from true text.
Proof.
  destruct text as [|c text]; [reflexivity|]. simpl.
  destruct (isspace c) eqn:Ec.
  - simpl. apply lstrip_collapse_true.
  - simpl. now rewrite Ec.
Qed.

(** Stripping on the right after collapsing: inside a word ([cur] holds
    its characters so far) and after white space. *)
Lemma rstrip_collapse (text : str) :
  (forall cur, cur <> [] -> solid cur ->
     rstrip (rev cur ++ SrtToText.collapse_from false text)
     = join (split_from cur text))
  /\ rstrip (SrtToText.collapse_from true text) = join (split_from [] text).
Proof.
  induction text as [|c text [IHA IHB]].
  - split; [|reflexivity]. intros cur Hne Hs. simpl.
    rewrite app_nil_r. destruct cur as [|x cur]; [congruence|].
    rewrite <- (app_nil_r (rev (x :: cur))) at 1.
    rewrite rstrip_app_solid by now apply solid_rev.
    now rewrite rstrip_nil, app_nil_r.
  - split.
    + intros cur Hne Hs. cbn [SrtToText.collapse_from split_from].
      destruct (isspace c) eqn:Ec.
      * destruct cur as [|x cur]; [congruence|].
        rewrite rstrip_app_solid by now apply solid_rev.
        rewrite rstrip_cons_space by apply isspace_space. rewrite IHB.
        destruct (split_from [] text) as [|w ws] eqn:S.
        -- cbn [join]. now rewrite app_nil_r.
        -- transitivity (rev (x :: cur) ++ space :: join (w :: ws));
             [|symmetry; apply join_cons; discriminate].
           destruct (join (w :: ws)) eqn:J; [|reflexivity].
           exfalso. eapply (join_nonempty (w :: ws)); [discriminate| |exact J].
           rewrite <- S. apply split_from_nonempty.
      * rewrite <- (IHA (c :: cur)); [|discriminate|now constructor].
        cbn [rev]. now rewrite <- app_assoc.
    + cbn [SrtToText.collapse_from split_from].
      destruct (isspace c) eqn:Ec; [exact IHB|].
      rewrite <- (IHA [c]); [reflexivity|discriminate|].
      constructor; [exact Ec|constructor].
Qed.

(** Collapsing the white space and stripping gives the words joined by
    single spaces. *)
Lemma strip_collapse (text : str) :
  strip (SrtToText.re_sub_spaces text) = join (split text).
Proof.
  unfold strip, SrtToText.re_sub_spaces, split.
  rewrite lstrip_collapse_false. apply rstrip_collapse.
Qed.

Lemma split_from_app_space (a b cur : str) :
  split_from cur (a ++ space :: b) = split_from cur a ++ split_from [] b.
Proof.
  revert cur; induction a as [|c a IH]; intros cur; simpl.
  - destruct cur; reflexivity.
  - destruct (isspace c).
    + destruct cur; rewrite IH; reflexivity.
    + apply IH.
Qed.

Lemma split_join (lines : list str) :
  split (join lines) = flat_map split lines.
Proof.
  induction lines as [|l lines IH]; [reflexivity|].
  destruct lines as [|l' lines].
  - simpl. now rewrite app_nil_r.
  - rewrite join_cons by discriminate. unfold split at 1.
    rewrite split_from_app_space. fold (split (join (l' :: lines))).
    rewrite IH. reflexivity.
Qed.

Lemma split_from_word (w cur : str) :
  solid w ->
  split_from cur w = match rev cur ++ w with [] => [] | x => [x] end.
Proof.
  intros Hw. revert cur. induction Hw as [|c w Hc Hw IH]; intros cur.
  - simpl. rewrite app_nil_r. destruct cur as [|x cur]; [reflexivity|].
    destruct (rev (x :: cur)) eqn:E; [|reflexivity].
    apply (f_equal (@length _)) in E. rewrite length_rev in E. discriminate.
  - simpl. rewrite Hc, IH. cbn [rev]. now rewrite <- app_assoc.
Qed.

Lemma split_words (words : list str) :
  Forall solid words -> Forall (fun w => w <> []) words ->
  flat_map split words = words.
Proof.
  induction 1 as [|w words Hw Hws IH]; intros Hne; [reflexivity|].
  inversion Hne; subst. cbn [flat_map]. rewrite IH by assumption.
  unfold split. rewrite split_from_word by assumption. simpl.
  destruct w; [congruence|reflexivity].
Qed.

(** Splitting the joined words of a text gives the words back. *)
Lemma split_join_split (text : str) :
  split (join (split text)) = split text.
Proof.
  rewrite split_join. apply split_words.
  - apply split_from_solid. constructor.
  - apply split_from_nonempty.
Qed.
End WordFacts.

(** ** Subtitle files to plain text *)

Section SrtFacts.
Import SrtToText.

Lemma join_app (l1 l2 : list str) :
  l1 <> [] -> l2 <> [] -> join (l1 ++ l2) = join l1 ++ space :: join l2.
Proof.
  intros H1 H2. induction l1 as [|w l1 IH]; [congruence|].
  destruct l1 as [|w' l1].
  - cbn [app]. now apply join_cons.
  - change ((w :: w' :: l1) ++ l2) with (w :: (w' :: l1) ++ l2).
    rewrite (join_cons w ((w' :: l1) ++ l2)) by discriminate.
    rewrite IH by discriminate.
    rewrite (join_cons w (w' :: l1)) by discriminate.
    now rewrite <- app_assoc.
Qed.

Lemma text_lines_false (blocks : list str) :
  text_lines blocks false = flat_map text_content blocks.
Proof.
  unfold text_lines. induction blocks as [|b blocks IH]; [reflexivity|].
  cbn [flat_map]. rewrite IH. destruct (text_content b); reflexivity.
Qed.

Lemma text_lines_nil (blocks : list str) :
  text_lines blocks true = [] <-> text_lines blocks false = [].
Proof.
  unfold text_lines. induction blocks as [|b blocks IH]; [tauto|].
  cbn [flat_map]. destruct (text_content b) as [|l ls]; [exact IH|].
  split; discriminate.
Qed.

Lemma text_lines_cons (b : str) (blocks : list str) (join_fragments : bool) :
  text_lines (b :: blocks) join_fragments
  = match text_content b with
    | [] => []
    | content => if join_fragments then [join content] else content
    end ++ text_lines blocks join_fragments.
Proof. reflexivity. Qed.

(** Joining block by block and then all blocks is joining all lines. *)
Lemma join_text_lines (blocks : list str) :
  join (text_lines blocks true) = join (text_lines blocks false).
Proof.
  induction blocks as [|b blocks IH]; [reflexivity|].
  pose proof (text_lines_nil blocks) as N.
  rewrite !text_lines_cons.
  destruct (text_content b) as [|l ls]; [exact IH|].
  destruct (text_lines blocks true) as [|t ts] eqn:T.
  - rewrite (proj1 N eq_refl). now rewrite !app_nil_r.
  - destruct (text_lines blocks false) as [|u us] eqn:U.
    + destruct N as [_ N]. discriminate (N eq_refl).
    + rewrite !join_app by discriminate. now rewrite IH.
Qed.
End SrtFacts.

(** X12.  The [join_fragments] flag of [srt_to_plaintext] has no effect on
    the returned text: joining the lines of each block before joining the
    blocks gives the same text as joining all lines. *)
Theorem srt_join_fragments_irrelevant (content : str) :
  SrtToText.srt_to_plaintext content true
  = SrtToText.srt_to_plaintext content false.
Proof.
  unfold SrtToText.srt_to_plaintext. now rewrite join_text_lines.
Qed.

(** X13.  The text returned by [srt_to_plaintext] is normalised: it is the
    sequence of its own words joined by single spaces, so it has no leading
    or trailing white space, no line break and no run of white space. *)
Theorem srt_plaintext_normalised (content : str) (join_fragments : bool) :
  SrtToText.srt_to_plaintext content join_fragments
  = join (split (SrtToText.srt_to_plaintext content join_fragments)).
Proof.
  unfold SrtToText.srt_to_plaintext. rewrite strip_collapse.
  now rewrite split_join_split.
Qed.

(** X14.  The words of the text returned by [srt_to_plaintext] are, in
    order, the words of the text lines of the subtitle blocks: of each
    block, its lines after the first two (sequence number and timestamp).
    Nothing else of the file reaches the output. *)
Theorem srt_plaintext_words (content : str) (join_fragments : bool) :
  split (SrtToText.srt_to_plaintext content join_fragments)
  = flat_map split
      (flat_map SrtToText.text_content (SrtToText.blocks_of content)).
Proof.
  assert (E : SrtToText.srt_to_plaintext content join_fragments
              = SrtToText.srt_to_plaintext content false).
  { destruct join_fragments; [|reflexivity].
    unfold SrtToText.srt_to_plaintext. now rewrite join_text_lines. }
  rewrite E. unfold SrtToText.srt_to_plaintext.
  rewrite strip_collapse, split_join_split, split_join, text_lines_false.
  reflexivity.
Qed.

(** ** White space does not matter to the punctuation metrics *)

Section WhitespaceFacts.
Import CalculatePunctuationAccuracy.

Lemma count_mark_not_space (c : char) :
  existsb (eqb c) punctuation_marks_count = true -> isspace c = false.
Proof.
  intros M. apply existsb_exists in M. destruct M as (x & Hx & E).
  apply eqb_eq in E. subst x.
  repeat (destruct Hx as [<-|Hx]; [reflexivity|]). contradiction.
Qed.

Lemma concat_split_from (text cur : str) :
  concat (split_from cur text)
  = rev cur ++ filter (fun c => negb (isspace c)) text.
Proof.
  revert cur; induction text as [|c text IH]; intros cur; simpl.
  - destruct cur; simpl; now rewrite ?app_nil_r.
  - destruct (isspace c) eqn:Ec; simpl.
    + destruct cur as [|x cur]; [apply IH|].
      cbn [concat]. now rewrite IH.
    + rewrite IH. cbn [rev]. now rewrite <- app_assoc.
Qed.

Lemma count_fold_solid (text : str) (acc : dict char Z) :
  fold_left
    (fun (counts : dict char Z) (char : char) =>
       if existsb (eqb char) punctuation_marks_count
       then set counts char (get_default counts char 0 + 1)%Z
       else counts)
    text acc
  = fold_left
      (fun (counts : dict char Z) (char : char) =>
         if existsb (eqb char) punctuation_marks_count
         then set counts char (get_default counts char 0 + 1)%Z
         else counts)
      (filter (fun c => negb (isspace c)) text) acc.
Proof.
  revert acc; induction text as [|c text IH]; intros acc; [reflexivity|].
  cbn [fold_left filter]. destruct (isspace c) eqn:Ec; cbn [negb].
  - destruct (existsb (eqb c) punctuation_marks_count) eqn:M; [|apply IH].
    apply count_mark_not_space in M. congruence.
  - cbn [fold_left]. apply IH.
Qed.

(** The counts of a text are those of its words. *)
Lemma count_punctuation_words (text : str) :
  count_punctuation text = count_punctuation (concat (split text)).
Proof.
  unfold count_punctuation, split. rewrite concat_split_from. cbn [rev app].
  apply count_fold_solid.
Qed.

Lemma lstrip_decompose (text : str) :
  exists spaces,
    text = spaces ++ lstrip text /\ Forall (fun c => isspace c = true) spaces.
Proof.
  induction text as [|c text (spaces & E & F)].
  - exists []. split; [reflexivity|constructor].
  - simpl. destruct (isspace c) eqn:Ec.
    + exists (c :: spaces). split; [simpl; now rewrite <- E|now constructor].
    + exists []. split; [reflexivity|constructor].
Qed.

Lemma split_from_spaces (spaces cur : str) :
  Forall (fun c => isspace c = true) spaces ->
  split_from cur spaces = match cur with [] => [] | _ => [rev cur] end.
Proof.
  intros Hs. revert cur. induction Hs as [|c spaces Hc Hs IH]; intros cur.
  - reflexivity.
  - simpl. rewrite Hc. destruct cur; rewrite (IH []); reflexivity.
Qed.

Lemma split_from_app_spaces (text spaces cur : str) :
  Forall (fun c => isspace c = true) spaces ->
  split_from cur (text ++ spaces) = split_from cur text.
Proof.
  intros Hs. revert cur; induction text as [|c text IH]; intros cur.
  - simpl. now apply split_from_spaces.
  - simpl. destruct (isspace c); [destruct cur|]; now rewrite IH.
Qed.

Lemma split_lstrip (text : str) : split (lstrip text) = split text.
Proof.
  unfold split. induction text as [|c text IH]; [reflexivity|].
  simpl. destruct (isspace c) eqn:Ec; [exact IH|].
  simpl. now rewrite Ec.
Qed.

Lemma split_rstrip (text : str) : split (rstrip text) = split text.
Proof.
  destruct (lstrip_decompose (rev text)) as (spaces & E & F).
  apply (f_equal (@rev _)) in E. rewrite rev_involutive, rev_app_distr in E.
  fold (rstrip text) in E. rewrite E at 2. unfold split.
  rewrite split_from_app_spaces; [reflexivity|]. now apply Forall_rev.
Qed.

(** Stripping a text keeps its words. *)
Lemma split_strip (text : str) : split (strip text) = split text.
Proof. unfold strip. now rewrite split_rstrip, split_lstrip. Qed.
End WhitespaceFacts.

(** X15.  The punctuation metrics depend on the two texts only through
    their word sequences: texts with the same words (however the white
    space between them is laid out) give the same result.  In particular
    stripping the texts, as [load_text] does, does not change the
    metrics. *)
Theorem punctuation_metrics_ignore_whitespace
        (isalnum : char -> bool) (lower : str -> str)
        (reference reference' hypothesis hypothesis' : str) :
  split reference = split reference' ->
  split hypothesis = split hypothesis' ->
  CalculatePunctuationAccuracy.calculate_punctuation_metrics
    isalnum lower reference hypothesis
  = CalculatePunctuationAccuracy.calculate_punctuation_metrics
      isalnum lower reference' hypothesis'
  /\ CalculatePunctuationAccuracy.calculate_punctuation_metrics
       isalnum lower (strip reference) (strip hypothesis)
     = CalculatePunctuationAccuracy.calculate_punctuation_metrics
         isalnum lower reference hypothesis.
Proof.
  assert (G : forall r r' h h',
             split r = split r' -> split h = split h' ->
             CalculatePunctuationAccuracy.calculate_punctuation_metrics
               isalnum lower r h
             = CalculatePunctuationAccuracy.calculate_punctuation_metrics
                 isalnum lower r' h').
  { intros r r' h h' Hr Hh.
    unfold CalculatePunctuationAccuracy.calculate_punctuation_metrics,
      CalculatePunctuationAccuracy.extract_punctuation_context.
    rewrite (count_punctuation_words r), (count_punctuation_words h),
      (count_punctuation_words r'), (count_punctuation_words h').
    rewrite Hr, Hh. reflexivity. }
  intros Hr Hh. split; [now apply G|].
  apply G; apply split_strip.
Qed.

(** X15 at "a,  b." against " a, b. " and the same texts laid out with
    single spaces. *)
Lemma punctuation_metrics_ignore_whitespace_witness :
  CalculatePunctuationAccuracy.calculate_punctuation_metrics
    CalculatePunctuationAccuracy.ascii_isalnum
    CalculatePunctuationAccuracy.ascii_lower (lit "a,  b.") (lit " a, b. ")
  = CalculatePunctuationAccuracy.calculate_punctuation_metrics
      CalculatePunctuationAccuracy.ascii_isalnum
      CalculatePunctuationAccuracy.ascii_lower (lit "a, b.") (lit "a, b.").
Proof.
  apply (punctuation_metrics_ignore_whitespace
           CalculatePunctuationAccuracy.ascii_isalnum
           CalculatePunctuationAccuracy.ascii_lower
           (lit "a,  b.") (lit "a, b.") (lit " a, b. ") (lit "a, b.")).
  - vm_compute; reflexivity.
  - vm_compute; reflexivity.
Defined.

(** ** The results of a complete evaluation *)

Section EvaluateLoopFacts.
Import EvaluateTranscripts.
Variable werpy_wer_of : str -> str -> result (option Q).

Lemma evaluate_loop_from (ground_truth : str) (runs : list Run)
      (acc results : list RunResult) :
  for_each (evaluate_step werpy_wer_of ground_truth) runs acc = Ok results ->
  exists new,
    results = acc ++ new
    /\ map run_id new
       = map r_run_id
           (filter (fun run =>
                      r_completed run
                      && match r_transcript_txt run with
                         | Some _ => true
                         | None => false
                         end)
                   runs)
    /\ forall result,
         In result new ->
         exists run transcript,
           In run runs
           /\ run_id result = r_run_id run
           /\ load_transcript run = Some transcript
           /\ calculate_metrics werpy_wer_of ground_truth transcript
              = Ok (metrics result).
Proof.
  revert acc; induction runs as [|run runs IH]; intros acc E.
  - simpl in E. inversion E; subst. exists []. rewrite app_nil_r.
    split; [reflexivity|]. split; [reflexivity|]. intros result [].
  - cbn [for_each] in E. unfold evaluate_step at 1 in E.
    cbn [filter]. unfold load_transcript in E at 1.
    destruct (r_completed run) eqn:C; cbn [negb andb] in *.
    2:{ cbn [Py.bind] in E. destruct (IH _ E) as (new & -> & Hm & Hn).
        exists new. split; [reflexivity|]. split; [exact Hm|].
        intros result Hin. destruct (Hn result Hin) as (r & t & H & R).
        exists r, t. split; [now right|exact R]. }
    destruct (r_transcript_txt run) as [content|] eqn:T.
    2:{ cbn [Py.bind] in E. destruct (IH _ E) as (new & -> & Hm & Hn).
        exists new. split; [reflexivity|]. split; [exact Hm|].
        intros result Hin. destruct (Hn result Hin) as (r & t & H & R).
        exists r, t. split; [now right|exact R]. }
    destruct (calculate_metrics werpy_wer_of ground_truth (strip content))
      as [m|] eqn:M; [|discriminate].
    cbn [Py.bind] in E. destruct (IH _ E) as (new & -> & Hm & Hn).
    eexists (_ :: new). split; [now rewrite <- app_assoc|].
    split; [cbn; now rewrite Hm|].
    intros result [<-|Hin].
    + exists run, (strip content). cbn. unfold load_transcript. rewrite T.
      repeat split; auto.
    + destruct (Hn result Hin) as (r & t & H & R).
      exists r, t. split; [now right|exact R].
Qed.
End EvaluateLoopFacts.

(** X16.  When [evaluate_all_runs] returns, its results are, in the order
    of the configuration, one result for every completed run whose
    [transcript.txt] exists (the other runs are skipped), and each result
    holds the metrics of the ground truth against the stripped
    transcript. *)
Theorem evaluate_all_runs_results
        (werpy_wer_of : str -> str -> result (option Q))
        (ground_truth : str) (runs : list EvaluateTranscripts.Run)
        (results : list EvaluateTranscripts.RunResult) :
  EvaluateTranscripts.evaluate_loop werpy_wer_of ground_truth runs
    = Ok results ->
  map EvaluateTranscripts.run_id results
  = map EvaluateTranscripts.r_run_id
      (filter (fun run =>
                 EvaluateTranscripts.r_completed run
                 && match EvaluateTranscripts.r_transcript_txt run with
                    | Some _ => true
                    | None => false
                    end)
              runs)
  /\ forall result,
       In result results ->
       exists run transcript,
         In run runs
         /\ EvaluateTranscripts.run_id result
            = EvaluateTranscripts.r_run_id run
         /\ EvaluateTranscripts.load_transcript run = Some transcript
         /\ EvaluateTranscripts.calculate_metrics
              werpy_wer_of ground_truth transcript
            = Ok (EvaluateTranscripts.metrics result).
Proof.
  intros E. apply evaluate_loop_from in E.
  destruct E as (new & -> & Hm & Hn). split; [exact Hm|exact Hn].
Qed.

(** X16 at the ground truth "a b" with a completed run "a c", a run that
    is not completed and a completed run without transcript. *)
Lemma evaluate_all_runs_results_witness :
  let run id completed transcript :=
    {| EvaluateTranscripts.r_run_id := lit id;
       EvaluateTranscripts.r_run_type := [];
       EvaluateTranscripts.r_provider := [];
       EvaluateTranscripts.r_model := [];
       EvaluateTranscripts.r_engine := None;
       EvaluateTranscripts.r_completed := completed;
       EvaluateTranscripts.r_transcript_txt := transcript;
       EvaluateTranscripts.r_processing_time := None |} in
  let runs := [run "r1"%string true (Some (lit "a c"));
               run "r2"%string false (Some (lit "a b"));
               run "r3"%string true None] in
  exists results,
    EvaluateTranscripts.evaluate_loop (fun _ _ => Ok None) (lit "a b") runs
      = Ok results
    /\ map EvaluateTranscripts.run_id results = [lit "r1"].
Proof.
  intros run runs. eexists. split; [vm_compute; reflexivity|].
  apply (evaluate_all_runs_results (fun _ _ => Ok None) (lit "a b") runs).
  vm_compute; reflexivity.
Defined.
